(** * Validate-schema: field binding, registry and deserialization pipeline

    A shallow embedding of the Python sources [class_registry.py],
    [utils.py], [validate.py], [fields.py] and [schema/schema.py], followed
    by the properties established about them.

    Conventions of the embedding
    - Python values are the JSON-like universe [pyval] extended with the
      [missing] singleton of [utils.py]; text is ASCII text.
    - A raised exception is a value of [exn]; a computation that may raise
      returns [result].  Computations whose calls are observed (which field
      was asked to deserialize which value) run in the writer monad [M].
    - A Python [dict] whose order matters is an association list with
      unique keys, kept in insertion order; the process-wide registry,
      whose order is never observed, is a [gmap].
    - Where the identity of objects matters (the field objects a schema
      binds, the dicts that [set_value] writes into), objects live in a
      store and are referred to by their identity. *)

From Stdlib Require Import ZArith String Ascii List Bool Lia.
From Stdlib Require Import DecimalString Decimal.
From Stdlib Require Import Floats.SpecFloat.
From stdpp Require Import base option list gmap strings fin_maps.

Open Scope string_scope.
Open Scope list_scope.

Set Warnings "-register-all".

(** ** Exceptions and results *)

(** The exception classes the sources raise.  [ValidationError] of
    rest_framework stores its detail as a list of messages (a string detail
    is wrapped into a one-element list); [ParseError] and [APIException]
    keep a single message. *)
Inductive exn : Type :=
  | ParseError (detail : string)
  | ValidationError (detail : list string)
  | APIException (detail : string)
  | PyValueError (msg : string)
  | PyTypeError (msg : string)
  | PyIndexError (msg : string).

Inductive result (A : Type) : Type :=
  | Ok (a : A)
  | Raise (e : exn).
Arguments Ok {A} a.
Arguments Raise {A} e.

Definition result_bind {A B} (r : result A) (k : A -> result B) : result B :=
  match r with
  | Ok a => k a
  | Raise e => Raise e
  end.

(** [ValidationError(detail='...')] with a string detail. *)
Definition ValidationError_str (s : string) : exn := ValidationError [s].

(** ** class_registry.py *)

Module class_registry.

(** A schema class, as far as the registry looks at it: the module that
    defines it ([cls.__module__]) and the identity of the class object. *)
Record SchemaType : Type := mkSchemaType {
  cls_module : string;
  cls_ident : nat
}.

#[global] Instance SchemaType_eq_dec : EqDecision SchemaType.
Proof. solve_decision. Defined.

(** [".".join([module, classname])] *)
Definition fullpath_of (module classname : string) : string :=
  module +:+ "." +:+ classname.

(** ["." in s]: class names written in a class statement hold no dot. *)
Fixpoint has_dot (s : string) : bool :=
  match s with
  | EmptyString => false
  | String ch rest => Ascii.eqb ch "."%char || has_dot rest
  end.

(** [any(each.__module__ == module for each in classes)] *)
Definition any_same_module (module : string) (classes : list SchemaType) : bool :=
  existsb (fun each => String.eqb (cls_module each) module) classes.

(** [register(classname, cls)], acting on the module-level [_registry]. *)
Definition register (classname : string) (cls : SchemaType)
    (_registry : gmap string (list SchemaType)) : gmap string (list SchemaType) :=
  let module := cls_module cls in
  let fullpath := fullpath_of module classname in
  let r1 :=
    match _registry !! classname with
    | Some classes =>
        if negb (any_same_module module classes)
        then <[classname := classes ++ [cls]]> _registry
        else _registry
    | None => <[classname := [cls]]> _registry
    end in
  match r1 !! fullpath with
  | None => <[fullpath := [] ++ [cls]]> r1
  | Some _ => <[fullpath := [cls]]> r1
  end.

(** [repr] of a name that holds no quote, backslash or control
    character, as in ["{!r}".format(classname)]. *)
Definition py_repr (s : string) : string := "'" +:+ s +:+ "'".

Definition not_found_line (classname : string) : string :=
  "Class with name " +:+ py_repr classname +:+ " was not found".

Definition multiple_line (classname : string) : string :=
  "Multiple classes with name " +:+ py_repr classname +:+ " were found.".

(** [get_class(classname)]: the lines printed, and the outcome.  Both
    failures raise the same [APIException]; the printed line tells a name
    that was not found from an ambiguous one. *)
Definition get_class (classname : string)
    (_registry : gmap string (list SchemaType)) : list string * result SchemaType :=
  match _registry !! classname with
  | None =>
      ([not_found_line classname], Raise (APIException "Contact admin for support"))
  | Some classes =>
      if Nat.ltb 1 (List.length classes)
      then ([multiple_line classname], Raise (APIException "Contact admin for support"))
      else match classes with
           | c :: _ => ([], Ok c)
           | [] => ([], Raise (PyIndexError "list index out of range"))
           end
  end.

(** The two registry failures of the specification, as outcomes of
    [get_class]. *)
Definition NotFoundError (classname : string) : list string * result SchemaType :=
  ([not_found_line classname], Raise (APIException "Contact admin for support")).

Definition AmbiguousNameError (classname : string) : list string * result SchemaType :=
  ([multiple_line classname], Raise (APIException "Contact admin for support")).

(** A run of class definitions, each registering itself, from a
    registry. *)
Definition register_all (defs : list (string * SchemaType))
    (_registry : gmap string (list SchemaType)) : gmap string (list SchemaType) :=
  fold_left (fun r d => register (fst d) (snd d) r) defs _registry.

End class_registry.

(** ** utils.py: values, the missing singleton, shape tests, [set_value] *)

Module utils.

(** Input and output values: [missing], [None], booleans, integers,
    floats (as IEEE values), text, sequences and string-keyed mappings. *)
Inductive pyval : Type :=
  | VMissing
  | VNone
  | VBool (b : bool)
  | VInt (z : Z)
  | VFloat (f : spec_float)
  | VStr (s : string)
  | VList (items : list pyval)
  | VDict (entries : list (string * pyval)).

(** [value is missing] *)
Definition is_missing (v : pyval) : bool :=
  match v with VMissing => true | _ => false end.

(** Truth value of a float: zero is false, everything else (also NaN)
    is true. *)
Definition float_bool (f : spec_float) : bool :=
  match f with S754_zero _ => false | _ => true end.

(** [bool(v)].  [_Missing.__bool__] returns [False]. *)
Definition py_bool (v : pyval) : bool :=
  match v with
  | VMissing => false
  | VNone => false
  | VBool b => b
  | VInt z => negb (Z.eqb z 0)
  | VFloat f => float_bool f
  | VStr s => negb (String.eqb s "")
  | VList l => match l with [] => false | _ => true end
  | VDict d => match d with [] => false | _ => true end
  end.

(** [is_collection(obj)]: iterable, not text, not a mapping. *)
Definition is_collection (v : pyval) : bool :=
  match v with VList _ => true | _ => false end.

(** [isinstance(data, Mapping)] *)
Definition is_mapping (v : pyval) : bool :=
  match v with VDict _ => true | _ => false end.

(** *** Insertion-ordered dictionaries *)

Section Dict.
Context {V : Type}.

(** [d.get(k)] *)
Fixpoint dict_get (d : list (string * V)) (k : string) : option V :=
  match d with
  | [] => None
  | (k', v) :: rest => if String.eqb k' k then Some v else dict_get rest k
  end.

(** [d[k] = v]: an existing key keeps its position, a new key goes
    last. *)
Fixpoint dict_set (d : list (string * V)) (k : string) (v : V) : list (string * V) :=
  match d with
  | [] => [(k, v)]
  | (k', v') :: rest =>
      if String.eqb k' k then (k', v) :: rest else (k', v') :: dict_set rest k v
  end.

(** [dict(pairs)] *)
Definition dict_of_pairs (pairs : list (string * V)) : list (string * V) :=
  fold_left (fun d kv => dict_set d (fst kv) (snd kv)) pairs [].

Definition dict_keys (d : list (string * V)) : list string := map fst d.
End Dict.

(** [data.get(field_name, missing)] on a mapping. *)
Definition mapping_get (entries : list (string * pyval)) (k : string) (default : pyval) : pyval :=
  match dict_get entries k with Some v => v | None => default end.

(** [key.split(".", 1)] when ["." in key]: the text before the first dot
    and the text after it. *)
Fixpoint split_first_dot (key : string) : option (string * string) :=
  match key with
  | EmptyString => None
  | String c rest =>
      if Ascii.eqb c "."%char then Some (EmptyString, rest)
      else match split_first_dot rest with
           | Some (head, tail) => Some (String c head, tail)
           | None => None
           end
  end.

(** [set_value(dct, key, value)].  The recursion is on the text after
    the first dot, so it is bounded by the length of the key; [fuel]
    counts the remaining calls.  The [ValueError] message is kept without
    the formatted [target]. *)
Fixpoint set_value_fuel (fuel : nat) (dct : list (string * pyval)) (key : string)
    (value : pyval) : result (list (string * pyval)) :=
  match split_first_dot key with
  | Some (head, rest) =>
      let target := match dict_get dct head with Some t => t | None => VDict [] end in
      match target with
      | VDict t =>
          match fuel with
          | O => Raise (PyValueError "recursion bound reached")
          | S fuel' =>
              result_bind (set_value_fuel fuel' t rest value)
                (fun t' => Ok (dict_set dct head (VDict t')))
          end
      | _ =>
          Raise (PyValueError
                   ("Cannot set " +:+ key +:+ " in " +:+ head +:+ " due to existing value"))
      end
  | None => Ok (dict_set dct key value)
  end.

Definition set_value (dct : list (string * pyval)) (key : string) (value : pyval)
    : result (list (string * pyval)) :=
  set_value_fuel (String.length key) dct key value.

(** [str(n)] for a natural number, as in an f-string. *)
Definition str_of_nat (n : nat) : string := NilEmpty.string_of_uint (Nat.to_uint n).

(** [f'{self.name}'] : the name, or the text [None] when it is unset. *)
Definition fmt_name (name : option string) : string :=
  match name with Some s => s | None => "None" end.

End utils.

Import class_registry utils.

(** ** Observed calls *)

(** A call [field.deserialize(value, ...)] on the field bound under
    [name]. *)
Inductive event : Type :=
  | DeserializeCall (name : option string) (value : pyval).

(** Writer over the calls made so far, on top of [result]: an exception
    keeps the calls made before it was raised. *)
Definition M (A : Type) : Type := (list event * result A)%type.

Definition ret {A} (a : A) : M A := ([], Ok a).
Definition raise {A} (e : exn) : M A := ([], Raise e).
Definition lift {A} (r : result A) : M A := ([], r).
Definition tell (ev : event) : M unit := ([ev], Ok tt).

Definition bind {A B} (m : M A) (k : A -> M B) : M B :=
  match m with
  | (log, Ok a) => let '(log', r) := k a in (log ++ log', r)
  | (log, Raise e) => (log, Raise e)
  end.

Notation "x <- m ;; k" := (bind m (fun x => k))
  (at level 100, m at next level, right associativity).
Notation "m ;;; k" := (bind m (fun _ => k))
  (at level 100, right associativity).

Definition calls {A} (m : M A) : list event := fst m.
Definition outcome {A} (m : M A) : result A := snd m.

(** ** validate.py *)

Module validate.

(** A validator is a callable [validator(value, name)]: it returns a value
    or raises.  [is_Validator] records [isinstance(validator, Validator)]. *)
Record validator : Type := mkValidator {
  is_Validator : bool;
  call : pyval -> option string -> result pyval
}.

(** [r is False] *)
Definition is_False (r : pyval) : bool :=
  match r with VBool false => true | _ => false end.

(** [And.__call__(value, name)] *)
Fixpoint And___call__ (validators : list validator) (value : pyval) (name : option string)
    : result pyval :=
  match validators with
  | [] => Ok value
  | validator :: rest =>
      result_bind (call validator value name) (fun r =>
        if negb (is_Validator validator) && is_False r
        then Raise (ValidationError_str "Invalid arguments")
        else And___call__ rest value name)
  end.

End validate.

Import validate.

(** ** fields.py *)

Module fields.

(** The [default] argument of a field: a value ([missing] when none was
    given) or a zero-argument callable, given by what calling it
    produces. *)
Inductive default : Type :=
  | DefaultValue (v : pyval)
  | DefaultCallable (produce : result pyval).

Definition no_default : default := DefaultValue VMissing.

(** [bool(self.load_default)]: a function object is true. *)
Definition default_truthy (d : default) : bool :=
  match d with
  | DefaultValue v => py_bool v
  | DefaultCallable _ => true
  end.

(** A field object: its bound [name], [required], [load_default],
    [validators], and the class it is an instance of.  [KOther] stands for
    any further subclass through its [_deserialize(value, attr, data)]
    override, which may read [self.name]. *)
Inductive field : Type :=
  | mkField (name : option string) (required : bool) (load_default : default)
            (validators : list validator) (kind : field_kind)
with field_kind : Type :=
  | KField
  | KString (upper_case : bool)
  | KBoolean
  | KList (inner : field)
  | KOther (_deserialize : option string -> pyval -> option string -> pyval -> result pyval).

Definition f_name (self : field) : option string :=
  match self with mkField name _ _ _ _ => name end.
Definition f_required (self : field) : bool :=
  match self with mkField _ required _ _ _ => required end.
Definition f_load_default (self : field) : default :=
  match self with mkField _ _ load_default _ _ => load_default end.
Definition f_validators (self : field) : list validator :=
  match self with mkField _ _ _ validators _ => validators end.
Definition f_kind (self : field) : field_kind :=
  match self with mkField _ _ _ _ kind => kind end.

(** [(value is missing_) or (value == '') or (value is None)] *)
Definition is_absent (value : pyval) : bool :=
  match value with
  | VMissing => true
  | VNone => true
  | VStr s => String.eqb s ""
  | _ => false
  end.

Definition required_message (name : option string) : string :=
  "Field " +:+ fmt_name name +:+ " is required".

(** [Field._validate_missing(value)] *)
Definition Field__validate_missing (self : field) (value : pyval) : result unit :=
  if is_absent value && f_required self then
    if default_truthy (f_load_default self) then Ok tt
    else Raise (ParseError (required_message (f_name self)))
  else Ok tt.

(** [Field._validate(value, name)], through [And] over [self.validators]. *)
Definition Field__validate (self : field) (value : pyval) (name : option string)
    : result unit :=
  result_bind (And___call__ (f_validators self) value name) (fun _ => Ok tt).

(** *** String *)

Definition ascii_upper (c : ascii) : ascii :=
  let n := nat_of_ascii c in
  if Nat.leb 97 n && Nat.leb n 122 then ascii_of_nat (n - 32) else c.

(** [str.upper()] on ASCII text. *)
Fixpoint str_upper (s : string) : string :=
  match s with
  | EmptyString => EmptyString
  | String c rest => String (ascii_upper c) (str_upper rest)
  end.

(** [String._deserialize] *)
Definition String__deserialize (name : option string) (upper_case : bool) (value : pyval)
    : result pyval :=
  match value with
  | VStr s => Ok (VStr (if upper_case then str_upper s else s))
  | _ => Raise (ValidationError_str ("Except field " +:+ fmt_name name +:+ " is a string"))
  end.

(** *** Boolean *)

(** The exact value [m * 2^e] of a finite float against an integer. *)
Definition float_eqb_Z (f : spec_float) (z : Z) : bool :=
  match f with
  | S754_zero _ => Z.eqb z 0
  | S754_finite s m e =>
      let v := if s then Z.neg m else Z.pos m in
      if Z.leb 0 e then Z.eqb (v * 2 ^ e) z else Z.eqb v (z * 2 ^ (- e))
  | _ => false
  end.

Definition float_eqb (f g : spec_float) : bool :=
  match f, g with
  | S754_zero _, S754_zero _ => true
  | S754_infinity s, S754_infinity t => Bool.eqb s t
  | S754_finite s m e, S754_finite t n d =>
      Bool.eqb s t &&
      (if Z.leb e d then Z.eqb (Z.pos m) (Z.pos n * 2 ^ (d - e))
       else Z.eqb (Z.pos m * 2 ^ (e - d)) (Z.pos n))
  | _, _ => false
  end.

(** [==] between hashable values: booleans, integers and floats compare
    as numbers, text with text, [None] and [missing] with themselves. *)
Definition py_eq (a b : pyval) : bool :=
  match a, b with
  | VMissing, VMissing => true
  | VNone, VNone => true
  | VStr s, VStr t => String.eqb s t
  | VBool x, VBool y => Bool.eqb x y
  | VBool x, VInt z | VInt z, VBool x => Z.eqb (Z.b2z x) z
  | VBool x, VFloat f | VFloat f, VBool x => float_eqb_Z f (Z.b2z x)
  | VInt x, VInt y => Z.eqb x y
  | VInt z, VFloat f | VFloat f, VInt z => float_eqb_Z f z
  | VFloat f, VFloat g => float_eqb f g
  | _, _ => false
  end.

(** [value in some_set]: hashing an unhashable value raises the built-in
    [TypeError]. *)
Definition set_contains (members : list pyval) (value : pyval) : result bool :=
  match value with
  | VList _ => Raise (PyTypeError "unhashable type: 'list'")
  | VDict _ => Raise (PyTypeError "unhashable type: 'dict'")
  | _ => Ok (existsb (py_eq value) members)
  end.

Definition truthy : list pyval :=
  [VStr "T"; VStr "TRUE"; VStr "Y"; VStr "YES"; VStr "1"; VInt 1; VBool true].

Definition falsy : list pyval :=
  [VStr "F"; VStr "FALSE"; VStr "N"; VStr "NO"; VStr "0"; VInt 0;
   VFloat (S754_zero false); VBool false].

Definition boolean_message (name : option string) : string :=
  "Field " +:+ fmt_name name +:+ " must be a boolean value".

(** [Boolean._deserialize] *)
Definition Boolean__deserialize (name : option string) (value : pyval) : result pyval :=
  match value with
  | VNone => Ok VNone
  | _ =>
      let value := match value with VStr s => VStr (str_upper s) | _ => value end in
      result_bind (set_contains truthy value) (fun in_truthy =>
        if in_truthy then Ok (VBool true)
        else result_bind (set_contains falsy value) (fun in_falsy =>
               if in_falsy then Ok (VBool false)
               else Raise (ValidationError_str (boolean_message name))))
  end.

(** *** List *)

Definition element_message (name : option string) (idx : nat) (inner_message : string)
    : string :=
  "Field " +:+ fmt_name name +:+ "[" +:+ str_of_nat (idx + 1) +:+ "]: " +:+ inner_message.

(** The handler [except ValidationError as error: raise ValidationError(
    detail=f'Field {self.name}[{idx + 1}]: {error.detail[0]}')]; any other
    exception passes through. *)
Definition reraise_element (name : option string) (idx : nat) (e : exn) : exn :=
  match e with
  | ValidationError detail =>
      match detail with
      | d :: _ => ValidationError_str (element_message name idx d)
      | [] => PyIndexError "list index out of range"
      end
  | _ => e
  end.

Section ListField.
Variable inner_deserialize : pyval -> M pyval.
Variable name : option string.

(** [for idx, each in enumerate(value): ...] of [List._deserialize],
    from index [idx] on. *)
Fixpoint List_loop (idx : nat) (value : list pyval) : M (list pyval) :=
  match value with
  | [] => ret []
  | each :: rest =>
      match inner_deserialize each with
      | (log, Raise e) => (log, Raise (reraise_element name idx e))
      | (log, Ok v) =>
          bind (log, Ok v) (fun v =>
            result <- List_loop (S idx) rest ;; ret (v :: result))
      end
  end.

(** [List._deserialize] *)
Definition List__deserialize (value : pyval) : M pyval :=
  match value with
  | VList items => result <- List_loop 0 items ;; ret (VList result)
  | _ =>
      raise (ValidationError_str ("Field " +:+ fmt_name name +:+ " must be iterable"))
  end.
End ListField.

(** *** Field.deserialize *)

(** [Field.deserialize(value, attr, data)], with the [_deserialize] of the
    field's class.  A list field calls [self.inner.deserialize(each)],
    where [attr] and [data] take their defaults [None]. *)
Fixpoint Field_deserialize (self : field) (value : pyval) (attr : option string)
    (data : pyval) {struct self} : M pyval :=
  match self with
  | mkField name required load_default validators kind =>
      tell (DeserializeCall name value) ;;;
      lift (Field__validate_missing self value) ;;;
      if is_absent value then
        match load_default with
        | DefaultCallable produce => lift produce
        | DefaultValue v => ret v
        end
      else
        output <- match kind with
                  | KField => ret value
                  | KString upper_case => lift (String__deserialize name upper_case value)
                  | KBoolean => lift (Boolean__deserialize name value)
                  | KList inner =>
                      List__deserialize
                        (fun each => Field_deserialize inner each None VNone) name value
                  | KOther _deserialize => lift (_deserialize name value attr data)
                  end ;;
        lift (Field__validate self output name) ;;;
        ret output
  end.

(** [self._deserialize(value, attr, data)]: the override of the field's
    class. *)
Definition Field__deserialize (self : field) (value : pyval) (attr : option string)
    (data : pyval) : M pyval :=
  match f_kind self with
  | KField => ret value
  | KString upper_case => lift (String__deserialize (f_name self) upper_case value)
  | KBoolean => lift (Boolean__deserialize (f_name self) value)
  | KList inner =>
      List__deserialize (fun each => Field_deserialize inner each None VNone)
        (f_name self) value
  | KOther _deserialize => lift (_deserialize (f_name self) value attr data)
  end.

(** [_miss() if callable(_miss) else _miss] *)
Definition default_result (d : default) : result pyval :=
  match d with
  | DefaultCallable produce => produce
  | DefaultValue v => Ok v
  end.


(** *** Binding: field objects in the object store *)

(** A reference to a schema instance or to a field object. *)
Inductive ref : Type :=
  | SchemaRef (ident : nat)
  | FieldRef (ident : nat).

(** The attributes [_bind_to_schema] reads and writes. *)
Record binding : Type := mkBinding {
  b_parent : option ref;
  b_name : option string;
  b_root : option ref
}.

(** The class attributes of [FieldABC]: [parent = name = root = None]. *)
Definition unbound : binding := mkBinding None None None.

(** Attribute lookup on a field object: an object without instance
    attributes shows the class attributes. *)
Definition attrs_of (store : gmap nat binding) (ident : nat) : binding :=
  match store !! ident with Some b => b | None => unbound end.

(** Truth value of [self.name]: [None] and the empty text are false. *)
Definition name_truthy (name : option string) : bool :=
  match name with
  | Some s => negb (String.eqb s "")
  | None => false
  end.

(** [Field._bind_to_schema(field_name, schema)] on the field object
    [self].  Schema instances and field objects are true, so [x or y] on
    [parent] and [root] tests for [None]. *)
Definition Field__bind_to_schema (self : nat) (field_name : string) (schema : ref)
    (store : gmap nat binding) : gmap nat binding :=
  let b := attrs_of store self in
  let parent := match b_parent b with Some p => p | None => schema end in
  let name := if name_truthy (b_name b) then b_name b else Some field_name in
  let root :=
    match b_root b with
    | Some r => Some r
    | None =>
        match parent with
        | FieldRef p => b_root (attrs_of store p)
        | SchemaRef _ => Some parent
        end
    end in
  <[self := mkBinding (Some parent) name root]> store.

(** Following [parent] from an object to the first object that is not a
    field. *)
Inductive first_non_field (store : gmap nat binding) : ref -> ref -> Prop :=
  | fnf_schema ident :
      first_non_field store (SchemaRef ident) (SchemaRef ident)
  | fnf_field ident p r :
      b_parent (attrs_of store ident) = Some p ->
      first_non_field store p r ->
      first_non_field store (FieldRef ident) r.

(** The same walk as a function, bounded by [fuel] steps. *)
Fixpoint walk_parent (fuel : nat) (store : gmap nat binding) (r : ref) : option ref :=
  match r with
  | SchemaRef _ => Some r
  | FieldRef ident =>
      match fuel with
      | O => None
      | S fuel' =>
          match b_parent (attrs_of store ident) with
          | Some p => walk_parent fuel' store p
          | None => None
          end
      end
  end.

(** *** Nested.schema *)

(** A schema instance as [Nested] sees it: the object, its class, and
    [many]. *)
Record schema_obj : Type := mkSchemaObj {
  obj_ident : nat;
  obj_class : SchemaType;
  obj_many : bool
}.

(** What the [nested] argument, or the call of a factory, evaluates to. *)
Inductive nested_value : Type :=
  | NestedInstance (s : schema_obj)
  | NestedClass (c : SchemaType)
  | NestedName (n : string)
  | NestedOther.

(** The [nested] argument: a value, or a callable that is not a class,
    given by what calling it produces. *)
Inductive nested_arg : Type :=
  | NestedDirect (v : nested_value)
  | NestedFactory (produce : result nested_value).

Inductive resolution_event : Type :=
  | FactoryCalled
  | RegistryLookup (classname : string)
  | Printed (line : string)
  | Constructed (c : SchemaType) (many : bool) (ident : nat)
  | CopiedInstance (source : nat) (ident : nat).

(** Process state around a [Nested] field: the registry, the next fresh
    object identity, and what resolution has done so far. *)
Record world : Type := mkWorld {
  w_registry : gmap string (list SchemaType);
  w_next : nat;
  w_trace : list resolution_event
}.

Record nested_field : Type := mkNested {
  nested : nested_arg;
  nested_many : bool;
  _schema : option schema_obj
}.

(** [Nested.__init__(nested, many=many)] *)
Definition Nested___init__ (nested : nested_arg) (many : bool) : nested_field :=
  mkNested nested many None.

Definition log_events (evs : list resolution_event) (w : world) : world :=
  mkWorld (w_registry w) (w_next w) (w_trace w ++ evs).

(** [schema_class(many=self.many)]: a new schema instance. *)
Definition construct (c : SchemaType) (many : bool) (w : world) : world * schema_obj :=
  (mkWorld (w_registry w) (S (w_next w)) (w_trace w ++ [Constructed c many (w_next w)]),
   mkSchemaObj (w_next w) c many).

(** [copy.copy(nested)] followed by [_init_fields()]: a new object of the
    same class with the same [many]. *)
Definition copy_instance (s : schema_obj) (w : world) : world * schema_obj :=
  (mkWorld (w_registry w) (S (w_next w))
           (w_trace w ++ [CopiedInstance (obj_ident s) (w_next w)]),
   mkSchemaObj (w_next w) (obj_class s) (obj_many s)).

(** The [schema] property of [Nested].  A schema instance is true (the
    schema classes define neither [__bool__] nor [__len__]), so
    [if not self._schema] tests for [None]. *)
Definition Nested_schema (self : nested_field) (w : world)
    : world * nested_field * result schema_obj :=
  match _schema self with
  | Some s => (w, self, Ok s)
  | None =>
      let '(w1, called) :=
        match nested self with
        | NestedFactory produce => (log_events [FactoryCalled] w, produce)
        | NestedDirect v => (w, Ok v)
        end in
      match called with
      | Raise e => (w1, self, Raise e)
      | Ok (NestedInstance s) =>
          let '(w2, s') := copy_instance s w1 in
          (w2, mkNested (nested self) (nested_many self) (Some s'), Ok s')
      | Ok (NestedClass c) =>
          let '(w2, s') := construct c (nested_many self) w1 in
          (w2, mkNested (nested self) (nested_many self) (Some s'), Ok s')
      | Ok (NestedName n) =>
          let '(lines, found) := get_class n (w_registry w1) in
          let w2 := log_events (RegistryLookup n :: map Printed lines) w1 in
          match found with
          | Raise e => (w2, self, Raise e)
          | Ok c =>
              let '(w3, s') := construct c (nested_many self) w2 in
              (w3, mkNested (nested self) (nested_many self) (Some s'), Ok s')
          end
      | Ok NestedOther =>
          (w1, self, Raise (APIException "Contact admin for support"))
      end
  end.

End fields.

Import fields.

(** ** schema/schema.py *)

Module schema.

(** *** Collecting the declared fields of a class *)

Section Collector.
(** The field objects found in class bodies. *)
Context {F : Type}.

(** A class attribute: a field (instance or class) or anything else. *)
Inductive attr : Type :=
  | AttrField (f : F)
  | AttrOther.

(** A class in a method resolution order: its [__dict__], and its
    [_declared_fields] when it has that attribute. *)
Record klass : Type := mkKlass {
  k_dict : list (string * attr);
  k_declared_fields : option (list (string * F))
}.

(** [_get_fields(attrs)] *)
Fixpoint _get_fields (attrs : list (string * attr)) : list (string * F) :=
  match attrs with
  | [] => []
  | (field_name, AttrField field_value) :: rest =>
      (field_name, field_value) :: _get_fields rest
  | (_, AttrOther) :: rest => _get_fields rest
  end.

(** [getattr(base, "_declared_fields", base.__dict__)] *)
Definition declared_fields_or_dict (base : klass) : list (string * attr) :=
  match k_declared_fields base with
  | Some table => map (fun nf => (fst nf, AttrField (snd nf))) table
  | None => k_dict base
  end.

(** [_get_fields_by_mro(klass)], given [mro = inspect.getmro(klass)]:
    the bases are [mro[:0:-1]], the class itself left out. *)
Definition _get_fields_by_mro (mro : list klass) : list (string * F) :=
  concat (map (fun base => _get_fields (declared_fields_or_dict base)) (rev (tl mro))).

(** [del attrs[field_name]] for every collected field. *)
Definition strip_fields (attrs : list (string * attr)) : list (string * attr) :=
  List.filter (fun na => match snd na with AttrField _ => false | AttrOther => true end)
    attrs.

(** [SchemaMeta.__new__(name, bases, attrs)].  [ancestors] is the method
    resolution order Python computes for the new class from [bases],
    without the class itself. *)
Definition SchemaMeta___new__ (attrs : list (string * attr)) (ancestors : list klass)
    : klass :=
  let cls_fields := _get_fields attrs in
  let attrs := strip_fields attrs in
  let klass := mkKlass attrs None in
  let inherited_fields := _get_fields_by_mro (klass :: ancestors) in
  mkKlass attrs (Some (dict_of_pairs (inherited_fields ++ cls_fields))).

(** The declared-field table of a class ([{}] on [SchemaMeta] when the
    class has none of its own). *)
Definition _declared_fields (k : klass) : list (string * F) :=
  match k_declared_fields k with Some table => table | None => [] end.

(** The built-in and base classes every schema inherits from:
    [object], [SchemaABC] (a plain class with [_declared_fields = {}])
    and [Schema]. *)
Definition object_class : klass := mkKlass [] None.
Definition SchemaABC_class : klass := mkKlass [] (Some []).
Definition Schema_class : klass := SchemaMeta___new__ [] [SchemaABC_class; object_class].
Definition Schema_mro : list klass := [Schema_class; SchemaABC_class; object_class].

(** [class C(P): body] with a single base: the method resolution order
    of [C] is [C] followed by that of [P]. *)
Definition subclass (body : list (string * attr)) (parent_mro : list klass) : list klass :=
  SchemaMeta___new__ body parent_mro :: parent_mro.

(** A chain of classes, each deriving from the previous one; bodies
    from the most distant ancestor to the most derived class. *)
Fixpoint define_chain (bodies : list (list (string * attr))) (base_mro : list klass)
    : list klass :=
  match bodies with
  | [] => base_mro
  | body :: rest => define_chain rest (subclass body base_mro)
  end.

(** Spec side: the fields a class body declares itself, and the
    declaration of a name nearest in a method resolution order given by
    the bodies, most derived first. *)
Fixpoint nearest_declaration (name : string) (bodies_mro : list (list (string * attr)))
    : option F :=
  match bodies_mro with
  | [] => None
  | body :: rest =>
      match dict_get (_get_fields body) name with
      | Some f => Some f
      | None => nearest_declaration name rest
      end
  end.
End Collector.

Arguments attr F : clear implicits.
Arguments klass F : clear implicits.

(** *** Schema instances and the deserialization walk *)

Record Schema : Type := mkSchema {
  many : bool;
  load_fields : list (string * field)
}.

(** The loop [for field_name, field_obj in self.load_fields.items()] of
    [Schema._deserialize], with [ret_d] built so far. *)
Fixpoint walk_fields (fields : list (string * field)) (entries : list (string * pyval))
    (data : pyval) (ret_d : list (string * pyval)) : M (list (string * pyval)) :=
  match fields with
  | [] => ret ret_d
  | (field_name, field_obj) :: rest =>
      value <- Field_deserialize field_obj (mapping_get entries field_name VMissing)
                 (Some field_name) data ;;
      ret_d' <- (if is_missing value then ret ret_d
                 else lift (set_value ret_d field_name value)) ;;
      walk_fields rest entries data ret_d'
  end.

(** [Schema._deserialize(data, many=False)] *)
Definition Schema__deserialize_one (self : Schema) (data : pyval) : M pyval :=
  match data with
  | VDict entries =>
      ret_d <- walk_fields (load_fields self) entries data [] ;; ret (VDict ret_d)
  | _ => raise (ValidationError_str "Except data is an objects")
  end.

(** The comprehension [[self._deserialize(d, many=False, index=idx)
    for idx, d in enumerate(data)]]. *)
Fixpoint deserialize_each (self : Schema) (items : list pyval) : M (list pyval) :=
  match items with
  | [] => ret []
  | d :: rest =>
      v <- Schema__deserialize_one self d ;;
      vs <- deserialize_each self rest ;;
      ret (v :: vs)
  end.

(** [Schema._deserialize(data, many=many)] *)
Definition Schema__deserialize (self : Schema) (data : pyval) (many : bool) : M pyval :=
  if many then
    match data with
    | VList items => ret_l <- deserialize_each self items ;; ret (VList ret_l)
    | _ => raise (ValidationError_str "Except data is an iterable value")
    end
  else Schema__deserialize_one self data.

(** [Schema.load(data, many=None)] *)
Definition Schema_load (self : Schema) (data : pyval) (many_arg : option bool) : M pyval :=
  Schema__deserialize self data
    (match many_arg with None => many self | Some b => b end).

End schema.

Import schema.

(** ** fields.py, continued: [Nested._deserialize] *)

(** [Nested._deserialize(value)], where [self.schema] has been resolved to
    the schema instance [schema]. *)
Definition Nested__deserialize (name : option string) (field_many : bool) (schema : Schema)
    (value : pyval) : M pyval :=
  let many := many schema || field_many in
  if many && negb (is_collection value)
  then raise (ValidationError_str ("Field " +:+ fmt_name name +:+ " must be iterable"))
  else Schema_load schema value None.

(** ** utils.py, continued: [get_value] *)









(** ** validate.py, continued: [Password] *)

(** The settings of a [Password] validator, under the attribute names of
    the source. *)
Record Password : Type := mkPassword {
  length_min : Z;
  cotain_number : bool;
  cotain_uppercase : bool;
  cotain_special : bool
}.

(** [Password()] with the defaults of [__init__]. *)
Definition Password_default : Password := mkPassword 8 true false false.

(** A decimal digit; on ASCII text this is [isdecimal], [isdigit] and
    [isnumeric] of a character. *)
Definition is_digit (c : ascii) : bool :=
  let n := nat_of_ascii c in Nat.leb 48 n && Nat.leb n 57.

Fixpoint str_all (p : ascii -> bool) (s : string) : bool :=
  match s with
  | EmptyString => true
  | String c rest => p c && str_all p rest
  end.

Fixpoint str_any (p : ascii -> bool) (s : string) : bool :=
  match s with
  | EmptyString => false
  | String c rest => p c || str_any p rest
  end.

(** [input.isdecimal()]: not empty, and digits only. *)
Definition has_only_number (input : string) : bool :=
  negb (String.eqb input "") && str_all is_digit input.

(** [any(letter.isnumeric() or letter.isdigit() for letter in input)] *)
Definition has_number (input : string) : bool :=
  str_any (fun letter => is_digit letter || is_digit letter) input.

(** [bool(re.match('[A-Z]', input))]: [re.match] looks at the start of the
    text only. *)
Definition has_uppercase_character (input : string) : bool :=
  match input with
  | EmptyString => false
  | String c _ => let n := nat_of_ascii c in Nat.leb 65 n && Nat.leb n 90
  end.

(** The characters of the class [[.@_!#$%^&*()<>?/\|}{~:]]. *)
Definition SPECIAL_CHARACTERS : list ascii :=
  list_ascii_of_string ".@_!#$%^&*()<>?/|}{~:".

(** [regex.search(input)] for that class. *)
Definition has_special_character (input : string) : bool :=
  str_any (fun c => existsb (Ascii.eqb c) SPECIAL_CHARACTERS) input.

(** [Password.__call__(value, name)] on text ([str(value)] is the
    identity on text). *)
Definition Password___call__ (self : Password) (value : string) (name : option string)
    : result string :=
  let errors :=
    (if Z.ltb (Z.of_nat (String.length value)) (length_min self)
     then ["Field " +:+ fmt_name name +:+ " is too short"] else []) ++
    (if has_only_number value
     then ["Field " +:+ fmt_name name +:+ " entirely numeric"] else []) ++
    (if cotain_number self && negb (has_number value)
     then ["Field " +:+ fmt_name name +:+ " must contain number"] else []) ++
    (if cotain_uppercase self && negb (has_uppercase_character value)
     then ["Field " +:+ fmt_name name +:+ " must contain uppercase characters"] else []) ++
    (if cotain_special self && negb (has_special_character value)
     then ["Field " +:+ fmt_name name +:+ " must contain special characters"] else []) in
  match errors with
  | [] => Ok value
  | _ => Raise (ValidationError errors)
  end.

(** ** utils.py and fields.py, continued: dates *)

(** A [datetime.date]. *)
Record date : Type := mkDate {
  year : Z;
  month : Z;
  day : Z
}.

Definition is_leap (y : Z) : bool :=
  Z.eqb (y mod 4) 0 && (negb (Z.eqb (y mod 100) 0) || Z.eqb (y mod 400) 0).

Definition days_in_month (y m : Z) : Z :=
  if Z.eqb m 2 then (if is_leap y then 29 else 28)
  else if Z.eqb m 4 || Z.eqb m 6 || Z.eqb m 9 || Z.eqb m 11 then 30
  else 31.

(** [dt.date(year, month, day)]: the constructor checks the year, then
    the month, then the day. *)
Definition date_new (y m d : Z) : result date :=
  if negb (Z.leb 1 y && Z.leb y 9999) then
    Raise (PyValueError "year is out of range")
  else if negb (Z.leb 1 m && Z.leb m 12) then
    Raise (PyValueError "month must be in 1..12")
  else if negb (Z.leb 1 d && Z.leb d (days_in_month y m)) then
    Raise (PyValueError "day is out of range for month")
  else Ok (mkDate y m d).

(** The longest run of at most [n] digits at the start of a text, and the
    rest: a greedy [\d{..,n}]. *)
Fixpoint take_digits (n : nat) (s : string) : string * string :=
  match n, s with
  | S n', String c rest =>
      if is_digit c then
        let '(digits, after) := take_digits n' rest in (String c digits, after)
      else (EmptyString, s)
  | _, _ => (EmptyString, s)
  end.

(** [int(digits)] for a text of decimal digits. *)
Definition int_of_digits (digits : string) : Z :=
  fold_left (fun acc c => (10 * acc + (Z.of_nat (nat_of_ascii c) - 48))%Z)
            (list_ascii_of_string digits) 0%Z.

(** [$]: the end of the text, or the line feed that ends it. *)
Definition at_end (s : string) : bool :=
  String.eqb s "" || String.eqb s (String "010"%char EmptyString).

(** [_iso8601_date_re.match(value)]: four digits, a dash, one or two
    digits, a dash, one or two digits, the end.  The groups [year],
    [month], [day]. *)
Definition match_iso8601_date (value : string) : option (string * string * string) :=
  let '(y, after_y) := take_digits 4 value in
  if negb (Nat.eqb (String.length y) 4) then None else
  match after_y with
  | String "-"%char after_dash =>
      let '(m, after_m) := take_digits 2 after_dash in
      if Nat.eqb (String.length m) 0 then None else
      match after_m with
      | String "-"%char after_dash' =>
          let '(d, after_d) := take_digits 2 after_dash' in
          if Nat.eqb (String.length d) 0 then None
          else if at_end after_d then Some (y, m, d) else None
      | _ => None
      end
  | _ => None
  end.

(** [from_iso_date(value)]; matching something that is not text raises
    [TypeError]. *)
Definition from_iso_date (value : pyval) : result date :=
  match value with
  | VStr s =>
      match match_iso8601_date s with
      | Some (y, m, d) => date_new (int_of_digits y) (int_of_digits m) (int_of_digits d)
      | None => Raise (PyValueError "Not a valid ISO8601-formatted date string")
      end
  | _ => Raise (PyTypeError "expected string or bytes-like object")
  end.

(** The character of the last decimal digit of a number. *)
Definition digit_char (n : Z) : ascii := ascii_of_nat (48 + Z.to_nat (n mod 10)).

(** [to_iso_date(date)], that is [date.isoformat()]: the year on four
    digits, the month and the day on two. *)
Definition to_iso_date (d : date) : string :=
  String (digit_char (year d / 1000)) (String (digit_char (year d / 100))
    (String (digit_char (year d / 10)) (String (digit_char (year d))
      (String "-"%char
        (String (digit_char (month d / 10)) (String (digit_char (month d))
          (String "-"%char
            (String (digit_char (day d / 10)) (String (digit_char (day d))
              EmptyString))))))))).

(** [dt.datetime.strptime(value, format)] as [DateTime._deserialize] calls
    it: [format] there is the built-in function of that name, not the
    field's format, and [strptime] raises [TypeError] for an argument that
    is not text. *)
Definition strptime_builtin_format {T : Type} (value : pyval) : result T :=
  match value with
  | VStr _ => Raise (PyTypeError "strptime() argument 2 must be str")
  | _ => Raise (PyTypeError "strptime() argument 1 must be str")
  end.

(** [DateTime._deserialize(value)] for a class with the given
    [DESERIALIZATION_FUNCS] and [OBJ_TYPE] ([DEFAULT_FORMAT] is ["iso"] in
    both classes).  [TypeError] and [ValueError] become the field's
    validation error. *)
Definition DateTime__deserialize {T : Type}
    (DESERIALIZATION_FUNCS : list (string * (pyval -> result T))) (OBJ_TYPE : string)
    (name : option string) (format : option string) (value : pyval) : result T :=
  if negb (py_bool value) then
    Raise (ValidationError_str ("Field " +:+ fmt_name name +:+ " is invalid"))
  else
    let data_format :=
      match format with
      | Some f => if String.eqb f "" then "iso" else f
      | None => "iso"
      end in
    let made :=
      match dict_get DESERIALIZATION_FUNCS data_format with
      | Some func => func value
      | None => strptime_builtin_format value
      end in
    match made with
    | Raise (PyTypeError _) | Raise (PyValueError _) =>
        Raise (ValidationError_str
                 ("Except field " +:+ fmt_name name +:+ " is a " +:+ OBJ_TYPE +:+ " value"))
    | other => other
    end.

(** [Date._deserialize]: the class [Date] with its two ISO entries. *)
Definition Date__deserialize : option string -> option string -> pyval -> result date :=
  DateTime__deserialize [("iso", from_iso_date); ("iso8601", from_iso_date)] "date".

(** ** schema.py and fields.py, continued: the field objects of a schema
    instance *)

(** The field objects of the process: their binding attributes, the
    [inner] field of those that are list fields, and the next fresh
    identity. *)
Record objects : Type := mkObjects {
  o_bindings : gmap nat binding;
  o_inner : gmap nat nat;
  o_next : nat
}.

(** [copy.copy(field)], which is also [Field.__deepcopy__]: a new object
    with the instance attributes of the original; the inner field of a
    list field is shared with the original. *)
Definition copy_field (ident : nat) (objs : objects) : objects * nat :=
  let new := o_next objs in
  (mkObjects
     (match o_bindings objs !! ident with
      | Some b => <[new := b]> (o_bindings objs)
      | None => delete new (o_bindings objs)
      end)
     (match o_inner objs !! ident with
      | Some inner => <[new := inner]> (o_inner objs)
      | None => delete new (o_inner objs)
      end)
     (S new),
   new).

(** [field._bind_to_schema(field_name, schema)] with the method of the
    object's class: [Field._bind_to_schema], and for a list field
    [List._bind_to_schema], which then replaces [self.inner] by a copy and
    binds the copy to the list field.  [depth] bounds the nesting of list
    fields inside list fields. *)
Fixpoint bind_field (depth : nat) (self : nat) (field_name : string) (schema : ref)
    (objs : objects) : objects :=
  let bound :=
    mkObjects (Field__bind_to_schema self field_name schema (o_bindings objs))
              (o_inner objs) (o_next objs) in
  match o_inner objs !! self with
  | None => bound
  | Some inner =>
      match depth with
      | O => bound
      | S depth' =>
          let '(copied, inner_copy) := copy_field inner bound in
          bind_field depth' inner_copy field_name (FieldRef self)
            (mkObjects (o_bindings copied) (<[self := inner_copy]> (o_inner copied))
                       (o_next copied))
      end
  end.

(** [copy.deepcopy(self._declared_fields)]: every field object is copied,
    once (the memo of [deepcopy]), into a new dictionary. *)
Fixpoint deepcopy_fields (declared : list (string * nat)) (memo : gmap nat nat)
    (objs : objects) : objects * list (string * nat) :=
  match declared with
  | [] => (objs, [])
  | (field_name, field_obj) :: rest =>
      match memo !! field_obj with
      | Some copy =>
          let '(objs', copies) := deepcopy_fields rest memo objs in
          (objs', (field_name, copy) :: copies)
      | None =>
          let '(objs1, copy) := copy_field field_obj objs in
          let '(objs', copies) := deepcopy_fields rest (<[field_obj := copy]> memo) objs1 in
          (objs', (field_name, copy) :: copies)
      end
  end.

(** [Schema._init_fields()]: every declared field is bound to the schema
    instance under its name. *)
Fixpoint Schema__init_fields (depth : nat) (self : nat) (declared_fields : list (string * nat))
    (objs : objects) : objects :=
  match declared_fields with
  | [] => objs
  | (field_name, field_obj) :: rest =>
      Schema__init_fields depth self rest
        (bind_field depth field_obj field_name (SchemaRef self) objs)
  end.

(** [Schema.__init__] of the instance [self], as far as field objects go:
    the class's [_declared_fields] are copied and the copies bound.  The
    result holds the new [load_fields]. *)
Definition Schema___init__ (depth : nat) (self : nat) (_declared_fields : list (string * nat))
    (objs : objects) : objects * list (string * nat) :=
  let '(copied, declared_fields) := deepcopy_fields _declared_fields ∅ objs in
  (Schema__init_fields depth self declared_fields copied, declared_fields).

(** ** utils.py, continued: [set_value] on dict objects *)

(** [set_value] writes into the dict it is given and into the dicts stored
    in it: [dct.setdefault(head, {})] returns the stored object itself,
    not a copy.  Here dicts are objects with an identity, so that a dict
    stored under two keys is one object; [utils.set_value] above gives the
    resulting mapping as a value. *)
Module dict_objects.

(** What a dict holds under a key: a dict object, by its identity, or a
    value that is not a dict ([set_value] asks no more of it than
    [isinstance(target, dict)]). *)
Inductive entry (A : Type) : Type :=
  | NotDict (a : A)
  | DictObj (ident : nat).
Arguments NotDict {A} a.
Arguments DictObj {A} ident.

(** The dict objects that exist: the object of identity [n] is the [n]-th,
    given by its entries in insertion order. *)
Abbreviation dicts A := (list (list (string * entry A))).

Section DictObjects.
Context {A : Type}.
Implicit Types (h : dicts A) (dct : nat) (key head : string) (value : entry A).

Definition contents h dct : list (string * entry A) :=
  match h !! dct with Some entries => entries | None => [] end.

(** [dct[key] = value], for a dict that exists. *)
Definition setitem h dct key value : dicts A :=
  <[dct := dict_set (contents h dct) key value]> h.

(** [dct.setdefault(head, {})]: what is stored under [head]; when nothing
    is, a new empty dict is stored there and returned.  (With the key
    present, the [{}] that Python has built is dropped at once.) *)
Definition setdefault h dct head : dicts A * entry A :=
  match dict_get (contents h dct) head with
  | Some target => (h, target)
  | None =>
      let fresh := List.length h in
      (setitem (h ++ [[]]) dct head (DictObj fresh), DictObj fresh)
  end.

(** [set_value(dct, key, value)]: the dicts afterwards, and the outcome.
    As for [utils.set_value_fuel], [fuel] counts the remaining calls and the
    [ValueError] message is kept without the formatted [target]. *)
Fixpoint set_value_fuel (fuel : nat) h dct key value : dicts A * result unit :=
  match split_first_dot key with
  | Some (head, rest) =>
      let '(h1, target) := setdefault h dct head in
      match target with
      | DictObj t =>
          match fuel with
          | O => (h1, Raise (PyValueError "recursion bound reached"))
          | S fuel' => set_value_fuel fuel' h1 t rest value
          end
      | NotDict _ =>
          (h1, Raise (PyValueError
                        ("Cannot set " +:+ key +:+ " in " +:+ head +:+ " due to existing value")))
      end
  | None => (setitem h dct key value, Ok tt)
  end.

Definition set_value h dct key value : dicts A * result unit :=
  set_value_fuel (String.length key) h dct key value.

End DictObjects.
End dict_objects.

(** ** Vocabulary of the statements *)

(** The truthy and falsy forms the specification lists for a boolean
    field: the texts [T], [TRUE], [Y], [YES], [1] (resp. [F], [FALSE], [N],
    [NO], [0]) in any letter case, and the numbers equal to one (resp.
    zero). *)
Definition truthy_form (value : pyval) : bool :=
  match value with
  | VStr s => existsb (String.eqb (str_upper s)) ["T"; "TRUE"; "Y"; "YES"; "1"]
  | VBool b => b
  | VInt z => Z.eqb z 1
  | VFloat f => float_eqb_Z f 1
  | _ => false
  end.

Definition falsy_form (value : pyval) : bool :=
  match value with
  | VStr s => existsb (String.eqb (str_upper s)) ["F"; "FALSE"; "N"; "NO"; "0"]
  | VBool b => negb b
  | VInt z => Z.eqb z 0
  | VFloat f => float_eqb_Z f 0
  | _ => false
  end.

(** The calls made when the field declared under a name is asked to
    deserialize its entry of the input mapping. *)
Definition field_calls (entries : list (string * pyval)) (declared : string * field)
    : list event :=
  calls (Field_deserialize (snd declared) (mapping_get entries (fst declared) VMissing)
           (Some (fst declared)) (VDict entries)).

(** The calls made when a list field's inner field is asked to deserialize
    each of the given elements in turn. *)
Definition element_calls (inner : field) (items : list pyval) : list event :=
  concat (map (fun each => calls (Field_deserialize inner each None VNone)) items).

(** Every field whose [root] is set has, as root, the first object that
    is not a field on its [parent] path. *)
Definition roots_resolved (store : gmap nat binding) : Prop :=
  forall ident r,
    b_root (attrs_of store ident) = Some r -> first_non_field store (FieldRef ident) r.

(** The names of a list of declarations in the order of their first
    occurrence, leaving out those already [seen]. *)
Fixpoint first_occurrences (seen : list string) (names : list string) : list string :=
  match names with
  | [] => []
  | k :: rest =>
      if existsb (String.eqb k) seen then first_occurrences seen rest
      else k :: first_occurrences (seen ++ [k]) rest
  end.

(** What the classes of a method resolution order contribute to the
    table of a new class below them, from the most distant class on. *)
Definition contributions {F : Type} (mro : list (klass F)) : list (string * F) :=
  concat (map (fun base => _get_fields (declared_fields_or_dict base)) (rev mro)).

(** In every list of the registry the classes come from distinct
    modules. *)
Definition one_per_module (reg : gmap string (list SchemaType)) : Prop :=
  forall key classes, reg !! key = Some classes -> List.NoDup (map cls_module classes).

(** What the field declared under a name makes of its entry of the input
    mapping, when it does not raise. *)
Definition field_output (entries : list (string * pyval)) (declared : string * field)
    : option pyval :=
  match outcome (Field_deserialize (snd declared)
                   (mapping_get entries (fst declared) VMissing)
                   (Some (fst declared)) (VDict entries)) with
  | Ok v => Some v
  | Raise _ => None
  end.

(** The entries of the output mapping: for each declared field, in
    declaration order, its name and output, unless the output is
    [missing]. *)
Definition produced_entries (entries : list (string * pyval))
    (fields : list (string * field)) : list (string * pyval) :=
  flat_map (fun declared =>
              match field_output entries declared with
              | Some v => if is_missing v then [] else [(fst declared, v)]
              | None => []
              end) fields.

(** Two states of the objects agree on an object. *)
Definition same_object (objs objs' : objects) (ident : nat) : Prop :=
  o_bindings objs' !! ident = o_bindings objs !! ident ∧
  o_inner objs' !! ident = o_inner objs !! ident.

(** The field's parent and root are this schema, or not set yet. *)
Definition bound_to_or_free (schema : ref) (b : binding) : Prop :=
  (b_parent b = None ∨ b_parent b = Some schema) ∧
  (b_root b = None ∨ b_root b = Some schema).

(** Every dict that is stored in a dict exists. *)
Definition closed {A : Type} (h : dict_objects.dicts A) : Prop :=
  Forall (Forall (fun kv : string * dict_objects.entry A =>
                    match snd kv with
                    | dict_objects.DictObj t => t < List.length h
                    | dict_objects.NotDict _ => True
                    end)) h.

(** The one entry, among those of the dicts that exist before the call,
    that [set_value(dct, key, _)] may assign: the walk follows the segments
    of the key through the dicts stored under them, and stops at the
    segment under which no dict is stored, or at the last segment. *)
Fixpoint write_site_fuel {A : Type} (fuel : nat) (h : dict_objects.dicts A) (dct : nat)
    (key : string) : nat * string :=
  match split_first_dot key with
  | Some (head, rest) =>
      match dict_get (dict_objects.contents h dct) head with
      | Some (dict_objects.DictObj t) =>
          match fuel with
          | O => (dct, head)
          | S fuel' => write_site_fuel fuel' h t rest
          end
      | _ => (dct, head)
      end
  | None => (dct, key)
  end.

Definition write_site {A : Type} (h : dict_objects.dicts A) (dct : nat) (key : string)
    : nat * string :=
  write_site_fuel (String.length key) h dct key.

(** * Properties *)

(** ** The registry *)

Section RegistryFacts.
Implicit Types (reg : gmap string (list SchemaType)) (c : SchemaType).

Lemma string_length_append (s t : string) :
  String.length (s +:+ t) = String.length s + String.length t.
Proof. induction s as [|ch s IH]; simpl; [reflexivity | now rewrite IH]. Qed.

Lemma fullpath_ne_classname (module classname : string) :
  fullpath_of module classname ≠ classname.
Proof.
  intros Heq. apply (f_equal String.length) in Heq.
  unfold fullpath_of in Heq. rewrite !string_length_append in Heq.
  simpl in Heq. lia.
Qed.

Lemma fullpath_has_dot (module classname : string) :
  has_dot (fullpath_of module classname) = true.
Proof.
  unfold fullpath_of. induction module as [|ch m IH]; simpl.
  - reflexivity.
  - rewrite IH. apply orb_true_r.
Qed.

(** A qualified name splits in one way into a module and a class name
    without dot. *)
Lemma fullpath_inj (m1 m2 n1 n2 : string) :
  has_dot n1 = false -> has_dot n2 = false ->
  fullpath_of m1 n1 = fullpath_of m2 n2 -> m1 = m2 ∧ n1 = n2.
Proof.
  unfold fullpath_of. revert m2.
  induction m1 as [|a m1 IH]; intros [|b m2] H1 H2 Heq;
    cbv [String.append] in Heq; fold String.append in Heq.
  - injection Heq as ->. auto.
  - injection Heq as <- ->.
    change (m2 +:+ String "." n2) with (fullpath_of m2 n2) in H1.
    rewrite fullpath_has_dot in H1. discriminate.
  - injection Heq as -> <-.
    change (m1 +:+ String "." n1) with (fullpath_of m1 n1) in H2.
    rewrite fullpath_has_dot in H2. discriminate.
  - injection Heq as -> Heq. destruct (IH m2 H1 H2 Heq) as [-> ->]. auto.
Qed.

(** What [register] leaves under the simple name. *)
Lemma register_lookup_classname reg classname c :
  register classname c reg !! classname =
    match reg !! classname with
    | Some classes =>
        if any_same_module (cls_module c) classes then Some classes
        else Some (classes ++ [c])
    | None => Some [c]
    end.
Proof.
  unfold register.
  pose proof (fullpath_ne_classname (cls_module c) classname) as Hne.
  set (r1 := match reg !! classname with
             | Some classes =>
                 if negb (any_same_module (cls_module c) classes)
                 then <[classname := classes ++ [c]]> reg else reg
             | None => <[classname := [c]]> reg end).
  assert (Hr1 : r1 !! classname =
    match reg !! classname with
    | Some classes =>
        if any_same_module (cls_module c) classes then Some classes
        else Some (classes ++ [c])
    | None => Some [c]
    end).
  { subst r1. destruct (reg !! classname) as [classes|] eqn:Hl.
    - destruct (any_same_module (cls_module c) classes); simpl.
      + exact Hl.
      + apply lookup_insert_eq.
    - apply lookup_insert_eq. }
  destruct (r1 !! fullpath_of (cls_module c) classname);
    rewrite lookup_insert_ne by exact Hne; exact Hr1.
Qed.

(** What [register] leaves under the qualified name. *)
Lemma register_lookup_fullpath reg classname c :
  register classname c reg !! fullpath_of (cls_module c) classname = Some [c].
Proof.
  unfold register.
  match goal with |- context [match ?r !! ?k with None => _ | Some _ => _ end] =>
    destruct (r !! k) end; apply lookup_insert_eq.
Qed.

(** [register] writes two keys only. *)
Lemma register_lookup_other reg classname c key :
  key ≠ classname -> key ≠ fullpath_of (cls_module c) classname ->
  register classname c reg !! key = reg !! key.
Proof.
  intros Hn Hf. unfold register.
  match goal with |- context [match ?r !! ?k with None => _ | Some _ => _ end] =>
    assert (Hr : r !! key = reg !! key);
    [ | destruct (r !! k); rewrite lookup_insert_ne by congruence; exact Hr ] end.
  destruct (reg !! classname) as [classes|].
  - destruct (negb _); [rewrite lookup_insert_ne by congruence|]; reflexivity.
  - rewrite lookup_insert_ne by congruence; reflexivity.
Qed.

Lemma any_same_module_true module classes :
  any_same_module module classes = true <->
  exists x, In x classes ∧ cls_module x = module.
Proof.
  unfold any_same_module. rewrite existsb_exists.
  split; intros (x & Hin & Hx); exists x; split; auto; now apply String.eqb_eq.
Qed.

(** After [register], the simple name lists a class of the registered
    class's module, and keeps every class it listed before. *)
Lemma register_classname_has_module reg classname c :
  exists classes,
    register classname c reg !! classname = Some classes ∧
    (exists x, In x classes ∧ cls_module x = cls_module c) ∧
    (forall old, reg !! classname = Some old -> forall x, In x old -> In x classes).
Proof.
  rewrite register_lookup_classname.
  destruct (reg !! classname) as [old|] eqn:Hold.
  - destruct (any_same_module (cls_module c) old) eqn:Hany.
    + exists old. split; [reflexivity|]. split.
      * now apply any_same_module_true.
      * intros ? [= <-]. auto.
    + exists (old ++ [c]). split; [reflexivity|]. split.
      * exists c. split; [apply in_or_app; right; now left | reflexivity].
      * intros ? [= <-] x Hx. apply in_or_app. now left.
  - exists [c]. split; [reflexivity|]. split.
    + exists c. split; [now left | reflexivity].
    + intros ? [=].
Qed.

Lemma two_modules_length (classes : list SchemaType) x y :
  In x classes -> In y classes -> cls_module x ≠ cls_module y ->
  Nat.ltb 1 (List.length classes) = true.
Proof.
  intros Hx Hy Hne. destruct classes as [|a [|b rest]]; simpl in *.
  - contradiction.
  - destruct Hx as [<-|[]], Hy as [<-|[]]. congruence.
  - reflexivity.
Qed.

(** Later registrations under other qualified names keep a qualified
    entry. *)
Lemma register_all_keeps_fullpath (post : list (string * SchemaType)) :
  forall reg module classname c,
    has_dot classname = false ->
    Forall (fun d => has_dot (fst d) = false) post ->
    Forall (fun d => ¬ (fst d = classname ∧ cls_module (snd d) = module)) post ->
    reg !! fullpath_of module classname = Some [c] ->
    register_all post reg !! fullpath_of module classname = Some [c].
Proof.
  induction post as [|[n' c'] post IH]; intros reg module classname c Hd Hds Hne Hl.
  - exact Hl.
  - simpl. inversion Hds as [|? ? Hd' Hds']; subst.
    inversion Hne as [|? ? Hne' Hnes']; subst. simpl in *.
    apply IH; auto.
    rewrite register_lookup_other; [exact Hl | |].
    + intros Heq. pose proof (fullpath_has_dot module classname) as Hf.
      rewrite Heq in Hf. congruence.
    + intros Heq. apply fullpath_inj in Heq; auto.
      destruct Heq as [-> ->]. apply Hne'. auto.
Qed.

(** C4.  Resolving an absent name fails with the not-found outcome;
    resolving a simple name that lists more than one class, as after two
    registrations of that name from two different modules, fails with the
    ambiguous-name outcome; and after any run of class definitions whose
    class names hold no dot, resolving the qualified name of a definition
    succeeds and returns the class registered last under that qualified
    name. *)
Theorem registry_resolution :
  (forall reg classname,
      reg !! classname = None ->
      get_class classname reg = NotFoundError classname) ∧
  (forall reg classname classes,
      reg !! classname = Some classes -> 1 < List.length classes ->
      get_class classname reg = AmbiguousNameError classname) ∧
  (forall reg classname c1 c2,
      cls_module c1 ≠ cls_module c2 ->
      get_class classname (register classname c2 (register classname c1 reg))
      = AmbiguousNameError classname) ∧
  (forall reg pre classname c post,
      Forall (fun d => has_dot (fst d) = false) (pre ++ (classname, c) :: post) ->
      Forall (fun d => ¬ (fst d = classname ∧ cls_module (snd d) = cls_module c)) post ->
      get_class (fullpath_of (cls_module c) classname)
                (register_all (pre ++ (classname, c) :: post) reg)
      = ([], Ok c)).
Proof.
  repeat split.
  - intros reg classname Hl. unfold get_class. now rewrite Hl.
  - intros reg classname classes Hl Hlen. unfold get_class. rewrite Hl.
    apply Nat.ltb_lt in Hlen. now rewrite Hlen.
  - intros reg classname c1 c2 Hne. unfold get_class.
    destruct (register_classname_has_module reg classname c1)
      as (l1 & Hl1 & (x & Hx & Hxm) & _).
    destruct (register_classname_has_module (register classname c1 reg) classname c2)
      as (l2 & Hl2 & (y & Hy & Hym) & Hkeep).
    rewrite Hl2.
    rewrite (two_modules_length l2 x y); auto.
    + eapply Hkeep; eauto.
    + congruence.
  - intros reg pre classname c post Hd Hne. unfold get_class.
    apply Forall_app in Hd as [_ Hd]. inversion Hd as [|? ? Hc Hpost]; subst.
    simpl in Hc.
    unfold register_all at 1. rewrite fold_left_app. simpl.
    fold (register_all pre reg). 
    match goal with |- context [fold_left ?f post ?r] =>
      change (fold_left f post r) with (register_all post r) end.
    rewrite (register_all_keeps_fullpath post _ (cls_module c) classname c); auto.
    apply register_lookup_fullpath.
Qed.

(** C10.  When a simple name not yet in the registry is registered for
    two classes of the same module, one after the other, the simple name
    resolves to the first class and the qualified name to the second. *)
Theorem same_module_redefinition_lookups_disagree reg classname c1 c2 :
  reg !! classname = None ->
  cls_module c1 = cls_module c2 ->
  let reg' := register classname c2 (register classname c1 reg) in
  get_class classname reg' = ([], Ok c1) ∧
  get_class (fullpath_of (cls_module c2) classname) reg' = ([], Ok c2).
Proof.
  intros Hfresh Hmod reg'. subst reg'. unfold get_class. split.
  - rewrite register_lookup_classname, register_lookup_classname, Hfresh.
    assert (any_same_module (cls_module c2) [c1] = true) as ->.
    { apply any_same_module_true. exists c1. split; [now left | exact Hmod]. }
    reflexivity.
  - rewrite register_lookup_fullpath. reflexivity.
Qed.

Lemma registry_resolution_witness :
  let a1 := mkSchemaType "app.users" 1 in
  let a2 := mkSchemaType "app.orders" 2 in
  let b := mkSchemaType "app.users" 3 in
  get_class "Item" ∅ = NotFoundError "Item" ∧
  get_class "Item" (<["Item" := [a1; a2]]> ∅) = AmbiguousNameError "Item" ∧
  get_class "Item" (register "Item" a2 (register "Item" a1 ∅))
    = AmbiguousNameError "Item" ∧
  get_class "app.users.Item"
    (register_all [("Other", b); ("Item", a1); ("Item", a2); ("Other", b)] ∅)
    = ([], Ok a1).
Proof.
  intros a1 a2 b.
  pose proof registry_resolution as (Habsent & Hmany & Htwo & Hfull).
  split; [apply Habsent; reflexivity|].
  split; [apply (Hmany _ "Item" [a1; a2]); [reflexivity | simpl; lia]|].
  split; [apply Htwo; simpl; discriminate|].
  apply (Hfull ∅ [("Other", b)] "Item" a1 [("Item", a2); ("Other", b)]).
  - repeat constructor.
  - repeat constructor; simpl; intros [? ?]; discriminate.
Defined.

Lemma same_module_redefinition_lookups_disagree_witness :
  let first := mkSchemaType "app.users" 1 in
  let second := mkSchemaType "app.users" 2 in
  let reg' := register "Item" second (register "Item" first ∅) in
  get_class "Item" reg' = ([], Ok first) ∧
  get_class "app.users.Item" reg' = ([], Ok second).
Proof.
  intros first second.
  apply (same_module_redefinition_lookups_disagree ∅ "Item" first second);
    reflexivity.
Defined.

End RegistryFacts.

(** ** Collecting declared fields *)

Section DictFacts.
Context {V : Type}.
Implicit Types (d : list (string * V)) (k : string) (v : V).

Lemma dict_get_None_keys d k : dict_get d k = None <-> ¬ In k (dict_keys d).
Proof.
  induction d as [|[k' v'] d IH]; simpl.
  - tauto.
  - destruct (String.eqb_spec k' k) as [->|Hne].
    + split; [discriminate | intros H; exfalso; apply H; now left].
    + rewrite IH. tauto.
Qed.

(** Setting a key that is not there appends it. *)
Lemma dict_set_fresh d k v : ¬ In k (dict_keys d) -> dict_set d k v = d ++ [(k, v)].
Proof.
  induction d as [|[k' v'] d IH]; simpl; intros H; [reflexivity|].
  destruct (String.eqb_spec k' k) as [->|Hne].
  - exfalso. apply H. now left.
  - rewrite IH; [reflexivity | tauto].
Qed.

(** Setting a key never moves a key. *)
Lemma dict_set_keys d k v :
  dict_keys (dict_set d k v) =
    match dict_get d k with Some _ => dict_keys d | None => dict_keys d ++ [k] end.
Proof.
  induction d as [|[k' v'] d IH]; simpl; [reflexivity|].
  destruct (String.eqb_spec k' k) as [->|Hne]; simpl; [reflexivity|].
  rewrite IH. now destruct (dict_get d k).
Qed.

Lemma dict_get_set d k v k' :
  dict_get (dict_set d k v) k' = if String.eqb k k' then Some v else dict_get d k'.
Proof.
  induction d as [|[k0 v0] d IH]; simpl.
  - reflexivity.
  - destruct (String.eqb_spec k0 k) as [->|Hne]; simpl.
    + now destruct (String.eqb_spec k k').
    + rewrite IH. destruct (String.eqb_spec k0 k') as [->|Hne'].
      * destruct (String.eqb_spec k k'); congruence.
      * reflexivity.
Qed.

(** Building a dictionary from the entries of a dictionary gives it
    back. *)
Lemma fold_dict_set_nodup d : forall d0,
  List.NoDup (dict_keys (d0 ++ d)) ->
  fold_left (fun acc kv => dict_set acc (fst kv) (snd kv)) d d0 = d0 ++ d.
Proof.
  induction d as [|[k v] d IH]; intros d0 Hnd; simpl.
  - now rewrite app_nil_r.
  - rewrite dict_set_fresh.
    + rewrite IH; rewrite <- app_assoc; [reflexivity | exact Hnd].
    + unfold dict_keys in *. rewrite map_app in Hnd. simpl in Hnd.
      apply List.NoDup_remove_2 in Hnd. intros Hin. apply Hnd.
      apply in_or_app. now left.
Qed.

Lemma fold_dict_set_keys_nodup (l : list (string * V)) : forall d0,
  List.NoDup (dict_keys d0) ->
  List.NoDup (dict_keys (fold_left (fun acc kv => dict_set acc (fst kv) (snd kv)) l d0)).
Proof.
  induction l as [|[k v] l IH]; intros d0 Hnd; simpl; [exact Hnd|].
  apply IH. rewrite dict_set_keys.
  destruct (dict_get d0 k) eqn:Hget; [exact Hnd|].
  apply dict_get_None_keys in Hget.
  apply List.NoDup_app; [exact Hnd | repeat constructor; intros [] |].
  intros x Hx [<-|[]]. now apply Hget.
Qed.

(** The keys of [dict(pairs)] are distinct. *)
Lemma dict_of_pairs_nodup (l : list (string * V)) : List.NoDup (dict_keys (dict_of_pairs l)).
Proof. apply fold_dict_set_keys_nodup. apply List.NoDup_nil. Qed.

(** Recomputing the table from the table changes nothing. *)
Lemma dict_of_pairs_idempotent (l : list (string * V)) :
  dict_of_pairs (dict_of_pairs l) = dict_of_pairs l.
Proof.
  unfold dict_of_pairs at 1. rewrite fold_dict_set_nodup; [reflexivity|].
  apply dict_of_pairs_nodup.
Qed.
End DictFacts.

Section DictOrder.
Context {V : Type}.
Implicit Types (d : list (string * V)) (k : string) (v : V).

Local Abbreviation extend d0 pairs :=
  (fold_left (fun acc kv => dict_set acc (fst kv) (snd kv)) pairs d0).

Lemma seen_spec k (seen : list string) :
  existsb (String.eqb k) seen = true <-> In k seen.
Proof.
  rewrite existsb_exists. split.
  - intros (x & Hx & ->%String.eqb_eq). exact Hx.
  - intros H. exists k. split; [exact H | apply String.eqb_refl].
Qed.

Lemma seen_keys d k :
  existsb (String.eqb k) (dict_keys d) =
    match dict_get d k with Some _ => true | None => false end.
Proof.
  induction d as [|[k' v'] d IH]; simpl; [reflexivity|].
  rewrite (String.eqb_sym k k').
  destruct (String.eqb k' k); simpl; [reflexivity | exact IH].
Qed.

Lemma dict_get_app d d' k :
  dict_get (d ++ d') k =
    match dict_get d k with Some v => Some v | None => dict_get d' k end.
Proof.
  induction d as [|[k' v'] d IH]; simpl; [reflexivity|].
  destruct (String.eqb k' k); [reflexivity | exact IH].
Qed.

(** With distinct keys, reading from the end is reading from the front. *)
Lemma dict_get_rev d k : List.NoDup (dict_keys d) -> dict_get (rev d) k = dict_get d k.
Proof.
  induction d as [|[k' v'] d IH]; simpl; intros Hnd; [reflexivity|].
  inversion Hnd as [|? ? Hnotin Hnd']; subst.
  rewrite dict_get_app, (IH Hnd'). simpl.
  destruct (String.eqb_spec k' k) as [->|Hne].
  - apply dict_get_None_keys in Hnotin. now rewrite Hnotin.
  - now destruct (dict_get d k).
Qed.

(** Two dictionaries with the same keys in the same order and the same
    value under every key are the same. *)
Lemma dict_ext d1 : forall d2,
  List.NoDup (dict_keys d1) ->
  dict_keys d1 = dict_keys d2 ->
  (forall k, dict_get d1 k = dict_get d2 k) ->
  d1 = d2.
Proof.
  induction d1 as [|[k1 v1] d1 IH]; intros [|[k2 v2] d2] Hnd Hkeys Hget;
    simpl in Hkeys; try discriminate; [reflexivity|].
  injection Hkeys as <- Hkeys.
  inversion Hnd as [|? ? Hnotin Hnd']; subst.
  pose proof (Hget k1) as H1. simpl in H1. rewrite String.eqb_refl in H1.
  injection H1 as <-. f_equal. apply IH; auto.
  intros k. pose proof (Hget k) as Hk. simpl in Hk.
  destruct (String.eqb_spec k1 k) as [Heq|Hne]; [subst k|exact Hk].
  pose proof Hnotin as Hnotin2. rewrite Hkeys in Hnotin2.
  apply dict_get_None_keys in Hnotin, Hnotin2. congruence.
Qed.

(** Position: the keys of [dict(pairs)], continued from [d0], are the
    keys of [d0] followed by the new names in the order of their first
    occurrence. *)
Lemma extend_keys (l : list (string * V)) : forall d0,
  dict_keys (extend d0 l) = dict_keys d0 ++ first_occurrences (dict_keys d0) (map fst l).
Proof.
  induction l as [|[k v] l IH]; intros d0; simpl.
  - now rewrite app_nil_r.
  - rewrite IH, dict_set_keys, seen_keys.
    destruct (dict_get d0 k); [reflexivity|].
    now rewrite <- app_assoc.
Qed.

(** Value: the last pair given for a name wins. *)
Lemma extend_get (l : list (string * V)) : forall d0 k,
  dict_get (extend d0 l) k =
    match dict_get (rev l) k with Some v => Some v | None => dict_get d0 k end.
Proof.
  induction l as [|[k' v'] l IH]; intros d0 k; simpl; [reflexivity|].
  rewrite IH, dict_get_app, dict_get_set. simpl.
  destruct (dict_get (rev l) k); [reflexivity|].
  now destruct (String.eqb k' k).
Qed.

Lemma dict_of_pairs_keys (l : list (string * V)) :
  dict_keys (dict_of_pairs l) = first_occurrences [] (map fst l).
Proof. unfold dict_of_pairs. now rewrite extend_keys. Qed.

Lemma dict_of_pairs_get (l : list (string * V)) k :
  dict_get (dict_of_pairs l) k = dict_get (rev l) k.
Proof. unfold dict_of_pairs. rewrite extend_get. now destruct (dict_get (rev l) k). Qed.

Lemma dict_of_pairs_app (a b : list (string * V)) :
  dict_of_pairs (a ++ b) = extend (dict_of_pairs a) b.
Proof. unfold dict_of_pairs. apply fold_left_app. Qed.

Lemma first_occurrences_skip (s : list string) : forall seen names,
  (forall x, In x s -> In x seen) ->
  first_occurrences seen (s ++ names) = first_occurrences seen names.
Proof.
  induction s as [|k s IH]; intros seen names Hsub; simpl; [reflexivity|].
  assert (existsb (String.eqb k) seen = true) as ->.
  { apply seen_spec, Hsub. now left. }
  apply IH. intros x Hx. apply Hsub. now right.
Qed.

Lemma first_occurrences_idempotent (names : list string) : forall seen,
  first_occurrences seen (first_occurrences seen names) = first_occurrences seen names.
Proof.
  induction names as [|k names IH]; intros seen; simpl; [reflexivity|].
  destruct (existsb (String.eqb k) seen) eqn:Hseen; [apply IH|].
  simpl. rewrite Hseen. f_equal. apply IH.
Qed.

(** A table already built from a prefix of the declarations is absorbed
    by the table built from all of them. *)
Lemma extend_absorbs (a b : list (string * V)) :
  extend (dict_of_pairs a) (dict_of_pairs (a ++ b)) = dict_of_pairs (a ++ b).
Proof.
  set (d := dict_of_pairs a). set (e := dict_of_pairs (a ++ b)).
  assert (Hkeys : dict_keys e = dict_keys d ++ first_occurrences (dict_keys d) (map fst b)).
  { subst e d. rewrite dict_of_pairs_app. apply extend_keys. }
  assert (Hnd : List.NoDup (dict_keys e)) by apply dict_of_pairs_nodup.
  symmetry. apply dict_ext; [exact Hnd | |].
  - rewrite extend_keys. unfold dict_keys at 3. fold (dict_keys e).
    rewrite Hkeys at 2.
    rewrite first_occurrences_skip by auto.
    rewrite first_occurrences_idempotent. exact Hkeys.
  - intros k. rewrite extend_get, (dict_get_rev e k Hnd).
    destruct (dict_get e k) eqn:Hget; [reflexivity|].
    symmetry. apply dict_get_None_keys. apply dict_get_None_keys in Hget.
    intros Hin. apply Hget. rewrite Hkeys. apply in_or_app. now left.
Qed.
End DictOrder.

Section ChainFacts.
Context {F : Type}.
Implicit Types (mro : list (klass F)) (body : list (string * attr F)).

Lemma _get_fields_of_table (table : list (string * F)) :
  _get_fields (map (fun nf => (fst nf, AttrField (snd nf))) table) = table.
Proof. induction table as [|[n f] t IH]; simpl; [reflexivity | now rewrite IH]. Qed.

Lemma SchemaMeta_new_table body mro :
  k_declared_fields (SchemaMeta___new__ body mro)
  = Some (dict_of_pairs (contributions mro ++ _get_fields body)).
Proof. reflexivity. Qed.

Lemma contributions_subclass body mro :
  contributions (subclass body mro)
  = contributions mro ++ dict_of_pairs (contributions mro ++ _get_fields body).
Proof.
  unfold contributions, subclass. simpl rev. rewrite map_app, concat_app. simpl.
  unfold declared_fields_or_dict at 2. rewrite SchemaMeta_new_table.
  now rewrite _get_fields_of_table, app_nil_r.
Qed.

Lemma define_chain_tables (bodies : list (list (string * attr F))) :
  forall mro k rest declared,
    mro = k :: rest ->
    k_declared_fields k = Some (dict_of_pairs declared) ->
    dict_of_pairs (contributions mro) = dict_of_pairs declared ->
    k_declared_fields (hd object_class (define_chain bodies mro))
    = Some (dict_of_pairs (declared ++ concat (map _get_fields bodies))).
Proof.
  induction bodies as [|body bodies IH]; intros mro k rest declared Hmro Hk Hc; simpl.
  - subst mro. simpl. now rewrite app_nil_r.
  - assert (Htable : dict_of_pairs (contributions mro ++ _get_fields body)
                     = dict_of_pairs (declared ++ _get_fields body)).
    { now rewrite !dict_of_pairs_app, Hc. }
    rewrite app_assoc.
    apply (IH (subclass body mro) (SchemaMeta___new__ body mro) mro).
    + reflexivity.
    + now rewrite SchemaMeta_new_table, Htable.
    + rewrite contributions_subclass, Htable, dict_of_pairs_app, Hc.
      apply extend_absorbs.
Qed.

(** On a chain of classes, each deriving from the one before, the table
    of the last class is [dict] of all the declarations, from the most
    distant class to the most derived one. *)
Lemma chain_declared_fields (bodies : list (list (string * attr F))) :
  _declared_fields (hd object_class (define_chain bodies Schema_mro))
  = dict_of_pairs (concat (map _get_fields bodies)).
Proof.
  unfold _declared_fields.
  rewrite (define_chain_tables bodies Schema_mro Schema_class
             [SchemaABC_class; object_class] []); reflexivity.
Qed.

(** On such a chain a name sits at the position of its first
    declaration. *)
Lemma chain_positions (bodies : list (list (string * attr F))) :
  dict_keys (_declared_fields (hd object_class (define_chain bodies Schema_mro)))
  = first_occurrences [] (map fst (concat (map _get_fields bodies))).
Proof. rewrite chain_declared_fields. apply dict_of_pairs_keys. Qed.

(** On such a chain, with names declared once per class body, a name
    holds the field of its most derived declaration. *)
Lemma chain_most_derived_wins (bodies : list (list (string * attr F))) name :
  Forall (fun body => List.NoDup (dict_keys (_get_fields body))) bodies ->
  dict_get (_declared_fields (hd object_class (define_chain bodies Schema_mro))) name
  = nearest_declaration name (rev bodies).
Proof.
  intros Hnd. rewrite chain_declared_fields, dict_of_pairs_get.
  induction bodies as [|body bodies IH] using rev_ind; [reflexivity|].
  apply Forall_app in Hnd as [Hnd Hbody]. inversion Hbody as [|? ? Hb _]; subst.
  rewrite map_app, concat_app, rev_app_distr, rev_app_distr. simpl.
  rewrite app_nil_r, dict_get_app, (dict_get_rev _ name Hb).
  destruct (dict_get (_get_fields body) name); [reflexivity | now apply IH].
Qed.
End ChainFacts.

(** C3.  Classes [A] (declaring [x]), [B(A)] (declaring [y]), [D(A)]
    (declaring [x] again) and [C(B, D)], whose method resolution order is
    [C, B, D, A, Schema, SchemaABC, object]: the table of [C] lists [x]
    then [y], the positions of first declaration, but under [x] it holds the
    field of [A], while the declaration nearest to [C] in that order, the
    most derived one, is the field of [D]. *)
Theorem diamond_keeps_ancestor_field :
  let xA := mkField None false no_default [] (KString false) in
  let xD := mkField None true no_default [] KBoolean in
  let yB := mkField None false no_default [] KField in
  let body_A := [("x", AttrField xA)] in
  let body_B := [("y", AttrField yB)] in
  let body_D := [("x", AttrField xD)] in
  let body_C := [] in
  let A := SchemaMeta___new__ body_A Schema_mro in
  let B := SchemaMeta___new__ body_B (A :: Schema_mro) in
  let D := SchemaMeta___new__ body_D (A :: Schema_mro) in
  let C := SchemaMeta___new__ body_C (B :: D :: A :: Schema_mro) in
  _declared_fields C = [("x", xA); ("y", yB)] ∧
  nearest_declaration "x" [body_C; body_B; body_D; body_A] = Some xD ∧
  xA ≠ xD.
Proof. repeat split. discriminate. Qed.

(** ** Fields: missing values, validators, booleans *)

Section FieldFacts.
Implicit Types (self : field) (value data : pyval) (attr : option string).

Lemma bind_outcome_ok {A B} (m : M A) (k : A -> M B) a :
  outcome m = Ok a -> outcome (bind m k) = outcome (k a).
Proof.
  destruct m as [log [x|e]]; simpl; intros H; [|discriminate].
  injection H as ->. unfold bind. destruct (k a) as [log' r]. reflexivity.
Qed.

Lemma bind_outcome_raise {A B} (m : M A) (k : A -> M B) e :
  outcome m = Raise e -> outcome (bind m k) = Raise e.
Proof.
  destruct m as [log [x|e']]; simpl; intros H; [discriminate|].
  injection H as ->. reflexivity.
Qed.

(** [Field.deserialize] in terms of the override [_deserialize]. *)
Lemma Field_deserialize_unfold self value attr data :
  Field_deserialize self value attr data =
    (tell (DeserializeCall (f_name self) value) ;;;
     lift (Field__validate_missing self value) ;;;
     if is_absent value then lift (default_result (f_load_default self))
     else
       output <- Field__deserialize self value attr data ;;
       lift (Field__validate self output (f_name self)) ;;;
       ret output).
Proof.
  destruct self as [name required load_default validators kind].
  unfold Field__deserialize. simpl.
  destruct (is_absent value); [destruct load_default; reflexivity|].
  destruct kind; reflexivity.
Qed.

(** [And.__call__] hands back the value it was given. *)
Lemma And_returns_its_argument (validators : list validator) value name r :
  And___call__ validators value name = Ok r -> r = value.
Proof.
  induction validators as [|v rest IH]; simpl.
  - now intros [= <-].
  - destruct (call v value name) as [x|e]; simpl; [|discriminate].
    destruct (negb (is_Validator v) && is_False x); [discriminate | exact IH].
Qed.

(** A required field without default fails on an absent value, naming
    the field. *)
Lemma required_without_default_fails self value attr data :
  f_required self = true ->
  default_truthy (f_load_default self) = false ->
  is_absent value = true ->
  Field_deserialize self value attr data =
    ([DeserializeCall (f_name self) value],
     Raise (ParseError (required_message (f_name self)))).
Proof.
  intros Hreq Hdef Habs. rewrite Field_deserialize_unfold.
  unfold Field__validate_missing. rewrite Habs, Hreq, Hdef. reflexivity.
Qed.

(** With a default whose truth value is true, the same call returns the
    default. *)
Lemma required_with_true_default_returns_it self value attr data :
  default_truthy (f_load_default self) = true ->
  is_absent value = true ->
  Field_deserialize self value attr data =
    ([DeserializeCall (f_name self) value], default_result (f_load_default self)).
Proof.
  intros Hdef Habs. rewrite Field_deserialize_unfold.
  unfold Field__validate_missing. rewrite Habs, Hdef.
  destruct (f_required self); simpl; destruct (default_result _); reflexivity.
Qed.

(** C1.  A required field declared with the default [0] still fails on
    the missing value with the required-error, where the specification
    has it return the default; declared with the default [1] it returns
    [1], and the field that is not required returns the default [0]. *)
Theorem required_field_with_falsy_default_fails :
  let declared := fun required default =>
    mkField (Some "age") required (DefaultValue default) [] KField in
  outcome (Field_deserialize (declared true (VInt 0)) VMissing (Some "age") (VDict []))
    = Raise (ParseError "Field age is required") ∧
  outcome (Field_deserialize (declared true (VInt 1)) VMissing (Some "age") (VDict []))
    = Ok (VInt 1) ∧
  outcome (Field_deserialize (declared false (VInt 0)) VMissing (Some "age") (VDict []))
    = Ok (VInt 0).
Proof. repeat split. Qed.

(** C7, as stated, fails: a validator that returns another value than
    the one it was given does not change what [deserialize] returns. *)
Lemma validator_result_returned_counterexample :
  ¬ (forall (v : validator) value r name,
       is_absent value = false ->
       call v value name = Ok r ->
       outcome (Field_deserialize (mkField name false no_default [v] KField)
                  value name VNone) = Ok r).
Proof.
  intros H.
  specialize (H (mkValidator true (fun _ _ => Ok (VStr "ADMIN")))
                (VStr "admin") (VStr "ADMIN") (Some "role") eq_refl eq_refl).
  discriminate H.
Qed.

(** C7, amended.  For a present value that the field's [_deserialize]
    turns into a candidate, [deserialize] hands the candidate to the
    validator chain and returns the candidate itself when the chain
    raises nothing, and the chain's exception otherwise; what the
    validators return is not used. *)
Theorem deserialize_returns_coerced_candidate self value attr data output :
  is_absent value = false ->
  outcome (Field__deserialize self value attr data) = Ok output ->
  outcome (Field_deserialize self value attr data) =
    match And___call__ (f_validators self) output (f_name self) with
    | Ok _ => Ok output
    | Raise e => Raise e
    end.
Proof.
  intros Habs Hco. rewrite Field_deserialize_unfold, Habs.
  unfold Field__validate_missing. rewrite Habs. simpl.
  destruct (Field__deserialize self value attr data) as [log [x|e]];
    simpl in Hco; [|discriminate]. injection Hco as ->.
  unfold bind, tell, lift, ret, Field__validate. simpl.
  destruct (And___call__ (f_validators self) output (f_name self)); reflexivity.
Qed.

Lemma deserialize_returns_coerced_candidate_witness :
  let upper := mkValidator true (fun v _ =>
    match v with VStr s => Ok (VStr (str_upper s)) | _ => Ok v end) in
  let role := mkField (Some "role") true no_default [upper] (KString false) in
  outcome (Field_deserialize role (VStr "admin") (Some "role") (VDict []))
    = Ok (VStr "admin").
Proof.
  intros upper role.
  apply (deserialize_returns_coerced_candidate role (VStr "admin") (Some "role")
           (VDict []) (VStr "admin")); reflexivity.
Defined.

End FieldFacts.

(** ** Boolean fields *)

Section BooleanFacts.
Implicit Types (value : pyval) (name : option string).

Lemma finite_float_not_zero s m e : float_eqb_Z (S754_finite s m e) 0 = false.
Proof.
  unfold float_eqb_Z. destruct (Z.leb 0 e) eqn:He.
  - apply Z.eqb_neq. apply Z.leb_le in He.
    assert (0 < 2 ^ e)%Z by (apply Z.pow_pos_nonneg; lia).
    destruct s; nia.
  - apply Z.eqb_neq. destruct s; simpl; lia.
Qed.

Lemma float_zero_or_one f :
  float_eqb_Z f 0 = true -> float_eqb_Z f 1 = false.
Proof.
  destruct f as [s|s| |s m e]; intros H.
  - reflexivity.
  - discriminate H.
  - discriminate H.
  - rewrite finite_float_not_zero in H. discriminate H.
Qed.

(** Membership in the class attributes [truthy] and [falsy], for a value
    that can be hashed, after the text has been upper-cased. *)
Lemma truthy_membership value :
  existsb (py_eq (match value with VStr s => VStr (str_upper s) | _ => value end)) truthy
  = truthy_form value.
Proof.
  destruct value as [| |b|z|f|s|l|d]; cbn [existsb truthy py_eq truthy_form orb];
    try reflexivity.
  - destruct b; reflexivity.
  - change (Z.b2z true) with 1%Z.
    rewrite (Z.eqb_sym 1 z), orb_false_r. apply orb_diag.
  - rewrite orb_false_r. apply orb_diag.
Qed.

Lemma falsy_membership value :
  existsb (py_eq (match value with VStr s => VStr (str_upper s) | _ => value end)) falsy
  = falsy_form value.
Proof.
  destruct value as [| |b|z|f|s|l|d]; cbn [existsb falsy py_eq falsy_form orb];
    try reflexivity.
  - destruct b; reflexivity.
  - change (Z.b2z false) with 0%Z.
    change (float_eqb_Z (S754_zero false) z) with (Z.eqb z 0).
    rewrite (Z.eqb_sym 0 z), orb_false_r, !orb_diag. reflexivity.
  - change (Z.b2z false) with 0%Z. rewrite orb_false_r.
    destruct f as [s|s| |s m e]; try reflexivity.
    rewrite finite_float_not_zero. reflexivity.
Qed.

Lemma truthy_falsy_disjoint value :
  falsy_form value = true -> truthy_form value = false.
Proof.
  destruct value as [| |b|z|f|s|l|d]; simpl; try reflexivity.
  - now destruct b.
  - intros H%Z.eqb_eq. subst. reflexivity.
  - apply float_zero_or_one.
  - rewrite !orb_false_r, !orb_true_iff, !String.eqb_eq.
    intros H. repeat rewrite orb_false_iff. rewrite !String.eqb_neq.
    intuition congruence.
Qed.

(** C8, as stated, fails: [None] is in neither set, and
    [Boolean._deserialize] returns it instead of failing. *)
Lemma boolean_none_counterexample :
  truthy_form VNone = false ∧ falsy_form VNone = false ∧
  Boolean__deserialize (Some "active") VNone = Ok VNone.
Proof. repeat split. Qed.

(** C8, amended.  [Boolean._deserialize] upper-cases text; it returns
    true for every truthy form, false for every falsy form, [None] for
    [None], and fails with the boolean validation error for every other
    value that is neither a sequence nor a mapping. *)
Theorem Boolean_deserialize_forms name value :
  (truthy_form value = true -> Boolean__deserialize name value = Ok (VBool true)) ∧
  (falsy_form value = true -> Boolean__deserialize name value = Ok (VBool false)) ∧
  (truthy_form value = false -> falsy_form value = false ->
   value ≠ VNone -> is_collection value = false -> is_mapping value = false ->
   Boolean__deserialize name value
   = Raise (ValidationError [boolean_message name])) ∧
  (value = VNone -> Boolean__deserialize name value = Ok VNone).
Proof.
  assert (Hgen : is_collection value = false -> is_mapping value = false ->
                 value ≠ VNone ->
                 Boolean__deserialize name value =
                   if truthy_form value then Ok (VBool true)
                   else if falsy_form value then Ok (VBool false)
                   else Raise (ValidationError [boolean_message name])).
  { intros Hc Hm Hn. rewrite <- truthy_membership, <- falsy_membership.
    destruct value as [| |b|z|f|s|l|d]; try discriminate; try congruence;
      reflexivity. }
  assert (Hshape : forall b, (truthy_form value = b ∨ falsy_form value = b) -> b = true ->
                   is_collection value = false ∧ is_mapping value = false ∧ value ≠ VNone).
  { intros b Hb ->. destruct value; simpl in Hb; destruct Hb; try discriminate;
      repeat split; discriminate. }
  repeat split.
  - intros Ht. destruct (Hshape true (or_introl Ht) eq_refl) as (Hc & Hm & Hn).
    rewrite Hgen, Ht; auto.
  - intros Hf. destruct (Hshape true (or_intror Hf) eq_refl) as (Hc & Hm & Hn).
    rewrite Hgen, Hf, (truthy_falsy_disjoint value Hf); auto.
  - intros Ht Hf Hn Hc Hm. rewrite Hgen, Ht, Hf; auto.
  - intros ->. reflexivity.
Qed.

Lemma Boolean_deserialize_forms_witness :
  Boolean__deserialize (Some "active") (VStr "yes") = Ok (VBool true) ∧
  Boolean__deserialize (Some "active") (VBool true) = Ok (VBool true) ∧
  Boolean__deserialize (Some "active") (VFloat (S754_zero true)) = Ok (VBool false) ∧
  Boolean__deserialize (Some "active") (VStr "maybe")
    = Raise (ValidationError ["Field active must be a boolean value"]) ∧
  Boolean__deserialize (Some "active") VNone = Ok VNone.
Proof.
  split; [apply (Boolean_deserialize_forms (Some "active") (VStr "yes")); reflexivity|].
  split; [apply (Boolean_deserialize_forms (Some "active") (VBool true)); reflexivity|].
  split; [apply (Boolean_deserialize_forms (Some "active") (VFloat (S754_zero true)));
          reflexivity|].
  split; [apply (Boolean_deserialize_forms (Some "active") (VStr "maybe"));
          (reflexivity || discriminate)|].
  apply (Boolean_deserialize_forms (Some "active") VNone); reflexivity.
Defined.

End BooleanFacts.

(** ** List fields *)

Section ListFacts.
Variable inner_deserialize : pyval -> M pyval.
Variable name : option string.

(** The loop of [List._deserialize] stops at the first element whose
    deserialization raises: the calls are those of the elements up to
    that one, and the exception goes through the handler with that
    element's index. *)
Lemma List_loop_first_failure (pre : list pyval) : forall idx x post e,
  Forall (fun each => exists v, outcome (inner_deserialize each) = Ok v) pre ->
  outcome (inner_deserialize x) = Raise e ->
  List_loop inner_deserialize name idx (pre ++ x :: post) =
    (concat (map (fun each => calls (inner_deserialize each)) (pre ++ [x])),
     Raise (reraise_element name (idx + List.length pre) e)).
Proof.
  induction pre as [|a pre IH]; intros idx x post e Hpre Hx; simpl.
  - destruct (inner_deserialize x) as [log [v|e']]; simpl in Hx; [discriminate|].
    injection Hx as ->. rewrite Nat.add_0_r, app_nil_r. reflexivity.
  - inversion Hpre as [|? ? [v Ha] Hpre']; subst.
    destruct (inner_deserialize a) as [loga [va|ea]]; simpl in Ha; [|discriminate].
    unfold bind at 1.
    rewrite (IH (S idx) x post e Hpre' Hx). simpl.
    replace (S (idx + List.length pre)) with (idx + S (List.length pre)) by lia.
    reflexivity.
Qed.
End ListFacts.

Section ListFieldFacts.
Variables (name : option string) (required : bool) (load_default : default)
          (validators : list validator) (inner : field).

Let self := mkField name required load_default validators (KList inner).

(** A list field on a sequence whose first failing element is [x], at
    index [length pre]. *)
Lemma list_field_first_failure pre x post e attr data :
  Forall (fun each => exists v, outcome (Field_deserialize inner each None VNone) = Ok v)
         pre ->
  outcome (Field_deserialize inner x None VNone) = Raise e ->
  Field_deserialize self (VList (pre ++ x :: post)) attr data =
    (DeserializeCall name (VList (pre ++ x :: post)) :: element_calls inner (pre ++ [x]),
     Raise (reraise_element name (List.length pre) e)).
Proof.
  intros Hpre Hx. subst self. simpl.
  unfold Field__validate_missing, List__deserialize. simpl.
  rewrite (List_loop_first_failure _ name pre 0 x post e Hpre Hx).
  unfold element_calls. reflexivity.
Qed.

(** When the element fails with a [ValidationError], the list field fails
    with the message that carries the one-based position and the first
    inner message. *)
Lemma list_field_indexes_validation_error pre x post d ds attr data :
  Forall (fun each => exists v, outcome (Field_deserialize inner each None VNone) = Ok v)
         pre ->
  outcome (Field_deserialize inner x None VNone) = Raise (ValidationError (d :: ds)) ->
  Field_deserialize self (VList (pre ++ x :: post)) attr data =
    (DeserializeCall name (VList (pre ++ x :: post)) :: element_calls inner (pre ++ [x]),
     Raise (ValidationError
              ["Field " +:+ fmt_name name +:+ "[" +:+ str_of_nat (List.length pre + 1)
               +:+ "]: " +:+ d])).
Proof.
  intros Hpre Hx. rewrite (list_field_first_failure pre x post _ attr data Hpre Hx).
  reflexivity.
Qed.

(** When the element fails with the required-error, the list field fails
    with that same exception: no position is added. *)
Lemma list_field_passes_parse_error pre x post msg attr data :
  Forall (fun each => exists v, outcome (Field_deserialize inner each None VNone) = Ok v)
         pre ->
  outcome (Field_deserialize inner x None VNone) = Raise (ParseError msg) ->
  outcome (Field_deserialize self (VList (pre ++ x :: post)) attr data)
  = Raise (ParseError msg).
Proof.
  intros Hpre Hx. rewrite (list_field_first_failure pre x post _ attr data Hpre Hx).
  reflexivity.
Qed.
End ListFieldFacts.

(** C5.  A list of required strings named [tags]: on [["ok", None,
    "later"]] the element at index 1 fails and the list field fails with the
    inner required-error as it is, without the position [tags[2]] the
    specification asks for; on [["ok", "ok", 123]] the failure of the element
    at index 2 carries [tags[3]]. *)
Theorem list_required_element_error_has_no_position :
  let inner := mkField (Some "tags") true no_default [] (KString false) in
  let tags := mkField (Some "tags") false no_default [] (KList inner) in
  outcome (Field_deserialize tags (VList [VStr "ok"; VNone; VStr "later"])
             (Some "tags") (VDict []))
    = Raise (ParseError "Field tags is required") ∧
  outcome (Field_deserialize tags (VList [VStr "ok"; VStr "ok"; VInt 123])
             (Some "tags") (VDict []))
    = Raise (ValidationError ["Field tags[3]: Except field tags is a string"]).
Proof. split; reflexivity. Qed.

(** ** [set_value]: the recursion bound is never reached *)

Section SetValueFacts.

Lemma split_first_dot_shorter (key : string) : forall head rest,
  split_first_dot key = Some (head, rest) -> String.length rest < String.length key.
Proof.
  induction key as [|c key IH]; intros head rest; simpl; [discriminate|].
  destruct (Ascii.eqb c "."%char).
  - intros [= _ <-]. lia.
  - destruct (split_first_dot key) as [[h t]|]; [|discriminate].
    intros [= _ <-]. specialize (IH h t eq_refl). lia.
Qed.

(** Any bound of at least the length of the key gives the same result. *)
Lemma set_value_fuel_irrelevant (n : nat) : forall m key dct value,
  String.length key <= n -> String.length key <= m ->
  set_value_fuel n dct key value = set_value_fuel m dct key value.
Proof.
  induction n as [|n IH]; intros m key dct value Hn Hm.
  - destruct key; [|simpl in Hn; lia]. now destruct m.
  - destruct m as [|m].
    + destruct key; [reflexivity | simpl in Hm; lia].
    + simpl. destruct (split_first_dot key) as [[head rest]|] eqn:Hsplit; [|reflexivity].
      apply split_first_dot_shorter in Hsplit.
      destruct (match dict_get dct head with Some t => t | None => VDict [] end);
        try reflexivity.
      rewrite (IH m rest entries value); [reflexivity | lia | lia].
Qed.

(** [set_value] is its own recursive equation. *)
Lemma set_value_unfold dct key value :
  set_value dct key value =
    match split_first_dot key with
    | Some (head, rest) =>
        match (match dict_get dct head with Some t => t | None => VDict [] end) with
        | VDict t =>
            result_bind (set_value t rest value)
              (fun t' => Ok (dict_set dct head (VDict t')))
        | _ =>
            Raise (PyValueError
                     ("Cannot set " +:+ key +:+ " in " +:+ head +:+ " due to existing value"))
        end
    | None => Ok (dict_set dct key value)
    end.
Proof.
  unfold set_value.
  destruct (split_first_dot key) as [[head rest]|] eqn:Hsplit.
  - pose proof (split_first_dot_shorter key head rest Hsplit) as Hlt.
    destruct (String.length key) as [|n] eqn:Hlen; [lia|].
    simpl. rewrite Hsplit.
    destruct (match dict_get dct head with Some t => t | None => VDict [] end);
      try reflexivity.
    rewrite (set_value_fuel_irrelevant n (String.length rest) rest entries value);
      [reflexivity | lia | lia].
  - destruct (String.length key); simpl; now rewrite Hsplit.
Qed.

End SetValueFacts.

(** ** The schema walk *)

Section WalkFacts.
Variables (entries : list (string * pyval)).
Local Abbreviation data := (VDict entries).

(** The two outcomes of one turn of the loop body after the field's
    [deserialize] returned [value]. *)
Lemma store_step_calls (ret_d : list (string * pyval)) field_name value :
  calls (if is_missing value then ret ret_d
         else lift (set_value ret_d field_name value)) = [].
Proof. destruct (is_missing value); reflexivity. Qed.

(** A walk that succeeds has made the calls of its fields, in the order
    of declaration. *)
Lemma walk_fields_calls (fields : list (string * field)) : forall ret_d log ret_d',
  walk_fields fields entries data ret_d = (log, Ok ret_d') ->
  log = concat (map (field_calls entries) fields).
Proof.
  induction fields as [|[n f] fields IH]; intros ret_d log ret_d' H; simpl in *.
  - now injection H as <- _.
  - unfold field_calls at 1. simpl.
    destruct (Field_deserialize f (mapping_get entries n VMissing) (Some n) data)
      as [lf [v|e]]; simpl in *; [|discriminate].
    pose proof (store_step_calls ret_d n v) as Hstep.
    destruct (if is_missing v then ret ret_d else lift (set_value ret_d n v))
      as [ls [r|e]]; simpl in *; [|discriminate]. subst ls.
    destruct (walk_fields fields entries data r) as [lw [r'|e]] eqn:Hw;
      simpl in *; [|discriminate].
    injection H as <- <-. simpl. f_equal. eapply IH; eauto.
Qed.

(** The walk stops at the first field whose [deserialize] raises. *)
Lemma walk_fields_first_failure (pre : list (string * field)) :
  forall field_name field_obj post ret_d log ret_d' logf e,
    walk_fields pre entries data ret_d = (log, Ok ret_d') ->
    Field_deserialize field_obj (mapping_get entries field_name VMissing)
      (Some field_name) data = (logf, Raise e) ->
    walk_fields (pre ++ (field_name, field_obj) :: post) entries data ret_d
    = (log ++ logf, Raise e).
Proof.
  induction pre as [|[n f] pre IH];
    intros field_name field_obj post ret_d log ret_d' logf e Hpre Hf; simpl in *.
  - injection Hpre as <- _. rewrite Hf. reflexivity.
  - destruct (Field_deserialize f (mapping_get entries n VMissing) (Some n) data)
      as [lf [v|e']]; simpl in *; [|discriminate].
    pose proof (store_step_calls ret_d n v) as Hstep.
    destruct (if is_missing v then ret ret_d else lift (set_value ret_d n v))
      as [ls [r|e']]; simpl in *; [|discriminate]. subst ls.
    destruct (walk_fields pre entries data r) as [lw [r'|e']] eqn:Hw;
      simpl in *; [|discriminate].
    injection Hpre as <- <-.
    rewrite (IH field_name field_obj post r lw r' logf e Hw Hf). simpl.
    now rewrite app_assoc.
Qed.

(** A name without dot is stored under itself. *)
Lemma set_value_plain (ret_d : list (string * pyval)) field_name value :
  has_dot field_name = false ->
  set_value ret_d field_name value = Ok (dict_set ret_d field_name value).
Proof.
  intros Hdot. rewrite set_value_unfold.
  assert (split_first_dot field_name = None) as ->; [|reflexivity].
  induction field_name as [|c key IH]; simpl in *; [reflexivity|].
  apply orb_false_iff in Hdot as [-> Hkey]. now rewrite (IH Hkey).
Qed.

(** Fields with names without dot that all deserialize their entries are
    walked to the end. *)
Lemma walk_fields_succeeds (fields : list (string * field)) : forall ret_d,
  Forall (fun declared =>
            has_dot (fst declared) = false ∧
            exists v, outcome (Field_deserialize (snd declared)
                                 (mapping_get entries (fst declared) VMissing)
                                 (Some (fst declared)) data) = Ok v) fields ->
  exists log ret_d', walk_fields fields entries data ret_d = (log, Ok ret_d').
Proof.
  induction fields as [|[n f] fields IH]; intros ret_d Hall.
  - now exists [], ret_d.
  - inversion Hall as [|? ? [Hdot [v Hv]] Hrest]; subst.
    cbn [walk_fields fst snd] in *.
    destruct (Field_deserialize f (mapping_get entries n VMissing) (Some n) data)
      as [lf r]. simpl in Hv. subst r.
    destruct (IH (if is_missing v then ret_d else dict_set ret_d n v) Hrest)
      as (lw & r' & Hw).
    exists (lf ++ lw), r'. unfold bind at 1.
    destruct (is_missing v); [|rewrite (set_value_plain ret_d n v Hdot)];
      unfold bind, ret, lift; rewrite Hw; reflexivity.
Qed.

(** C2.  When [load] is given one mapping, the fields before
    [field_name] in declaration order are walked without failure, and the
    field declared under [field_name] fails with [e], then [load] fails
    with [e], and the calls made are those of the fields up to that one, in
    declaration order: no field declared after it is asked to
    deserialize. *)
Theorem load_stops_at_first_failing_field (self : Schema) pre field_name field_obj post
    log ret_d e :
  many self = false ->
  load_fields self = pre ++ (field_name, field_obj) :: post ->
  walk_fields pre entries data [] = (log, Ok ret_d) ->
  outcome (Field_deserialize field_obj (mapping_get entries field_name VMissing)
             (Some field_name) data) = Raise e ->
  Schema_load self data None =
    (concat (map (field_calls entries) (pre ++ [(field_name, field_obj)])), Raise e).
Proof.
  intros Hmany Hfields Hpre Hf.
  unfold Schema_load, Schema__deserialize. rewrite Hmany.
  unfold Schema__deserialize_one. cbv beta iota. rewrite Hfields.
  destruct (Field_deserialize field_obj (mapping_get entries field_name VMissing)
              (Some field_name) (VDict entries)) as [logf r] eqn:Hfd.
  simpl in Hf. subst r.
  rewrite (walk_fields_first_failure pre field_name field_obj post [] log ret_d logf e
             Hpre Hfd).
  rewrite (walk_fields_calls pre [] log ret_d Hpre).
  rewrite map_app, concat_app. simpl. unfold field_calls at 3. simpl.
  rewrite Hfd. simpl. now rewrite app_nil_r.
Qed.
End WalkFacts.

Lemma load_stops_at_first_failing_field_witness :
  let named := fun n => mkField (Some n) false no_default [] KBoolean in
  let self := mkSchema false [("a", named "a"); ("b", named "b"); ("c", named "c")] in
  let entries := [("a", VStr "yes"); ("b", VStr "maybe"); ("c", VStr "perhaps")] in
  Schema_load self (VDict entries) None =
    ([DeserializeCall (Some "a") (VStr "yes"); DeserializeCall (Some "b") (VStr "maybe")],
     Raise (ValidationError ["Field b must be a boolean value"])).
Proof.
  intros named self entries.
  apply (load_stops_at_first_failing_field entries self [("a", named "a")] "b" (named "b")
           [("c", named "c")] [DeserializeCall (Some "a") (VStr "yes")]
           [("a", VBool true)]); reflexivity.
Defined.

(** ** Binding *)

Section BindingFacts.
Implicit Types (store : gmap nat binding) (self : nat) (schema : ref).

Lemma attrs_of_insert_eq store self b : attrs_of (<[self := b]> store) self = b.
Proof. unfold attrs_of. now rewrite lookup_insert_eq. Qed.

Lemma attrs_of_insert_ne store self other b :
  self ≠ other -> attrs_of (<[self := b]> store) other = attrs_of store other.
Proof. intros H. unfold attrs_of. now rewrite lookup_insert_ne. Qed.

(** [_bind_to_schema] touches the bound field only. *)
Lemma bind_other store self field_name schema other :
  self ≠ other ->
  attrs_of (Field__bind_to_schema self field_name schema store) other
  = attrs_of store other.
Proof. intros H. unfold Field__bind_to_schema. now apply attrs_of_insert_ne. Qed.

(** [_bind_to_schema] never changes a parent that is set. *)
Lemma bind_keeps_parents store self field_name schema ident p :
  b_parent (attrs_of store ident) = Some p ->
  b_parent (attrs_of (Field__bind_to_schema self field_name schema store) ident) = Some p.
Proof.
  intros H. destruct (decide (self = ident)) as [->|Hne].
  - unfold Field__bind_to_schema. rewrite attrs_of_insert_eq. simpl. now rewrite H.
  - now rewrite bind_other.
Qed.

Lemma first_non_field_mono store store' x r :
  (forall ident p, b_parent (attrs_of store ident) = Some p ->
                   b_parent (attrs_of store' ident) = Some p) ->
  first_non_field store x r -> first_non_field store' x r.
Proof.
  intros Hmono H. induction H as [ident | ident p r Hp _ IH].
  - constructor.
  - econstructor; eauto.
Qed.

(** The walk along [parent] ends in one object only. *)
Lemma first_non_field_functional store x r r' :
  first_non_field store x r -> first_non_field store x r' -> r = r'.
Proof.
  intros H. revert r'. induction H as [ident | ident p r Hp _ IH]; intros r' H'.
  - now inversion H'.
  - inversion H' as [| ? p' ? Hp' Hw]; subst. rewrite Hp in Hp'.
    injection Hp' as <-. auto.
Qed.

Lemma first_non_field_walk store x r :
  first_non_field store x r <-> exists fuel, walk_parent fuel store x = Some r.
Proof.
  split.
  - intros H. induction H as [ident | ident p r Hp _ [fuel IH]].
    + now exists 0.
    + exists (S fuel). simpl. now rewrite Hp.
  - intros [fuel H]. revert x H. induction fuel as [|fuel IH]; intros [s|f] H; simpl in H.
    + injection H as <-. constructor.
    + discriminate.
    + injection H as <-. constructor.
    + destruct (b_parent (attrs_of store f)) as [p|] eqn:Hp; [|discriminate].
      econstructor; eauto.
Qed.

(** Binding keeps the roots resolved. *)
Lemma bind_preserves_roots_resolved store self field_name schema :
  roots_resolved store ->
  roots_resolved (Field__bind_to_schema self field_name schema store).
Proof.
  intros Hinv ident r Hr.
  pose proof (bind_keeps_parents store self field_name schema) as Hmono.
  destruct (decide (self = ident)) as [<-|Hne].
  - pose proof Hr as Hr'. unfold Field__bind_to_schema in Hr'.
    rewrite attrs_of_insert_eq in Hr'. simpl in Hr'.
    destruct (b_root (attrs_of store self)) as [r0|] eqn:Hroot.
    + injection Hr' as <-. eapply first_non_field_mono; eauto.
    + assert (Hpar : b_parent (attrs_of (Field__bind_to_schema self field_name schema store)
                                self)
                     = Some (match b_parent (attrs_of store self) with
                             | Some p => p | None => schema end)).
      { unfold Field__bind_to_schema. now rewrite attrs_of_insert_eq. }
      destruct (match b_parent (attrs_of store self) with
                | Some p => p | None => schema end) as [s|p] eqn:Hp.
      * injection Hr' as <-. econstructor; [exact Hpar | constructor].
      * econstructor; [exact Hpar|].
        eapply first_non_field_mono; eauto.
  - rewrite bind_other in Hr by assumption.
    eapply first_non_field_mono; eauto.
Qed.

Lemma roots_resolved_empty : roots_resolved ∅.
Proof. intros ident r H. unfold attrs_of in H. rewrite lookup_empty in H. discriminate. Qed.

(** On a field whose three attributes are set, binding changes
    nothing. *)
Lemma bind_bound_is_noop store self field_name schema :
  b_parent (attrs_of store self) ≠ None ->
  name_truthy (b_name (attrs_of store self)) = true ->
  b_root (attrs_of store self) ≠ None ->
  attrs_of (Field__bind_to_schema self field_name schema store) self = attrs_of store self.
Proof.
  intros Hp Hn Hr. unfold Field__bind_to_schema. rewrite attrs_of_insert_eq.
  destruct (attrs_of store self) as [[p|] n [r|]]; simpl in *; try congruence.
  now rewrite Hn.
Qed.

(** C9.  The first [_bind_to_schema] of a fresh field, under a name
    that is not empty and to a schema, or to a field whose root is set,
    sets [name], [parent] and [root]; [root] is the first object that is
    not a field on the [parent] path; and after that, in any state of the
    store in which the field still has these attributes, a further
    [_bind_to_schema] with any arguments leaves them as they are. *)
Theorem bind_assigns_once store self field_name schema :
  attrs_of store self = unbound ->
  field_name ≠ "" ->
  roots_resolved store ->
  match schema with
  | SchemaRef _ => True
  | FieldRef p => b_root (attrs_of store p) ≠ None
  end ->
  let store1 := Field__bind_to_schema self field_name schema store in
  let bound := attrs_of store1 self in
  b_name bound = Some field_name ∧
  b_parent bound = Some schema ∧
  (exists r, b_root bound = Some r ∧ first_non_field store1 (FieldRef self) r) ∧
  (forall store' field_name' schema',
      attrs_of store' self = bound ->
      attrs_of (Field__bind_to_schema self field_name' schema' store') self = bound).
Proof.
  intros Hfresh Hname Hinv Hparent store1 bound.
  assert (Hb : bound =
    mkBinding (Some schema) (Some field_name)
      (match schema with
       | FieldRef p => b_root (attrs_of store p)
       | SchemaRef _ => Some schema
       end)).
  { subst bound store1. unfold Field__bind_to_schema.
    rewrite attrs_of_insert_eq, Hfresh. reflexivity. }
  assert (Hroot : exists r, b_root bound = Some r).
  { rewrite Hb. simpl. destruct schema as [s|p]; [eauto|].
    destruct (b_root (attrs_of store p)); [eauto | congruence]. }
  split; [now rewrite Hb|]. split; [now rewrite Hb|]. split.
  - destruct Hroot as [r Hr]. exists r. split; [exact Hr|].
    apply (bind_preserves_roots_resolved store self field_name schema Hinv). exact Hr.
  - intros store' field_name' schema' Hsame.
    rewrite bind_bound_is_noop; rewrite Hsame; auto.
    + rewrite Hb. discriminate.
    + rewrite Hb. simpl. apply negb_true_iff. now apply String.eqb_neq.
    + destruct Hroot as [r Hr]. congruence.
Qed.

Lemma bind_assigns_once_witness :
  let store1 := Field__bind_to_schema 1 "tags" (SchemaRef 0) ∅ in
  let store2 := Field__bind_to_schema 2 "tags" (FieldRef 1) store1 in
  attrs_of store2 2 = mkBinding (Some (FieldRef 1)) (Some "tags") (Some (SchemaRef 0)) ∧
  walk_parent 2 store2 (FieldRef 2) = Some (SchemaRef 0) ∧
  attrs_of (Field__bind_to_schema 2 "other" (SchemaRef 7) store2) 2 = attrs_of store2 2.
Proof.
  intros store1 store2.
  assert (H1 : roots_resolved store1).
  { apply bind_preserves_roots_resolved, roots_resolved_empty. }
  destruct (bind_assigns_once store1 2 "tags" (FieldRef 1)) as (Hn & Hp & _ & Hnoop).
  - reflexivity.
  - discriminate.
  - exact H1.
  - discriminate.
  - split; [reflexivity|]. split; [reflexivity|].
    apply (Hnoop store2 "other" (SchemaRef 7)). reflexivity.
Defined.
End BindingFacts.

(** ** Nested: resolution of the schema reference *)

Section NestedFacts.
Implicit Types (self : nested_field) (w : world).

(** A successful access leaves the resolved instance in the cache. *)
Lemma Nested_schema_caches self w w1 self1 s :
  Nested_schema self w = (w1, self1, Ok s) -> _schema self1 = Some s.
Proof.
  unfold Nested_schema. destruct (_schema self) as [s0|] eqn:Hcache.
  - intros [= <- <- <-]. exact Hcache.
  - destruct (nested self) as [v|produce].
    + destruct v as [s0|c|n|].
      * simpl. intros [= <- <- <-]. reflexivity.
      * simpl. intros [= <- <- <-]. reflexivity.
      * simpl. destruct (get_class n (w_registry w)) as [lines [c|e]].
        -- intros [= <- <- <-]. reflexivity.
        -- discriminate.
      * discriminate.
    + destruct produce as [v|e]; [|discriminate].
      destruct v as [s0|c|n|].
      * simpl. intros [= <- <- <-]. reflexivity.
      * simpl. intros [= <- <- <-]. reflexivity.
      * simpl. destruct (get_class n _) as [lines [c|e]].
        -- intros [= <- <- <-]. reflexivity.
        -- discriminate.
      * discriminate.
Qed.

(** An access with a filled cache returns it and does nothing else. *)
Lemma Nested_schema_cached self w s :
  _schema self = Some s -> Nested_schema self w = (w, self, Ok s).
Proof. intros H. unfold Nested_schema. now rewrite H. Qed.

(** C6.  Declaring a nested field resolves nothing: the cache is empty.
    The first access resolves the reference, whatever its kind: an
    instance is copied, a class is instantiated with the field's [many], a
    name is looked up in the registry as it is at that access (so a class
    registered after the declaration is found) and the class found is
    instantiated, and a factory is called once and its result resolved in
    the same way; a failing factory or lookup, or a reference of no such
    kind, raises and caches nothing.  An access that succeeds caches the
    instance, and every access of a field whose cache is filled, in any
    state of the process, returns that instance and leaves the process
    state as it is (no factory call, construction or registry lookup). *)
Theorem nested_schema_lazy_and_memoized :
  (forall nested many, _schema (Nested___init__ nested many) = None) ∧
  (forall s many w,
      Nested_schema (Nested___init__ (NestedDirect (NestedInstance s)) many) w =
        (mkWorld (w_registry w) (S (w_next w))
                 (w_trace w ++ [CopiedInstance (obj_ident s) (w_next w)]),
         mkNested (NestedDirect (NestedInstance s)) many
                  (Some (mkSchemaObj (w_next w) (obj_class s) (obj_many s))),
         Ok (mkSchemaObj (w_next w) (obj_class s) (obj_many s)))) ∧
  (forall c many w,
      Nested_schema (Nested___init__ (NestedDirect (NestedClass c)) many) w =
        (mkWorld (w_registry w) (S (w_next w))
                 (w_trace w ++ [Constructed c many (w_next w)]),
         mkNested (NestedDirect (NestedClass c)) many
                  (Some (mkSchemaObj (w_next w) c many)),
         Ok (mkSchemaObj (w_next w) c many))) ∧
  (forall n many w lines c,
      get_class n (w_registry w) = (lines, Ok c) ->
      Nested_schema (Nested___init__ (NestedDirect (NestedName n)) many) w =
        (mkWorld (w_registry w) (S (w_next w))
                 (w_trace w ++ RegistryLookup n :: map Printed lines
                            ++ [Constructed c many (w_next w)]),
         mkNested (NestedDirect (NestedName n)) many (Some (mkSchemaObj (w_next w) c many)),
         Ok (mkSchemaObj (w_next w) c many))) ∧
  (forall n many w lines e,
      get_class n (w_registry w) = (lines, Raise e) ->
      Nested_schema (Nested___init__ (NestedDirect (NestedName n)) many) w =
        (mkWorld (w_registry w) (w_next w)
                 (w_trace w ++ RegistryLookup n :: map Printed lines),
         Nested___init__ (NestedDirect (NestedName n)) many,
         Raise e)) ∧
  (forall n many reg c next trace,
      reg !! n = None ->
      Nested_schema (Nested___init__ (NestedDirect (NestedName n)) many)
                    (mkWorld (register n c reg) next trace) =
        (mkWorld (register n c reg) (S next)
                 (trace ++ [RegistryLookup n; Constructed c many next]),
         mkNested (NestedDirect (NestedName n)) many (Some (mkSchemaObj next c many)),
         Ok (mkSchemaObj next c many))) ∧
  (forall many w,
      Nested_schema (Nested___init__ (NestedDirect NestedOther) many) w =
        (w, Nested___init__ (NestedDirect NestedOther) many,
         Raise (APIException "Contact admin for support"))) ∧
  (forall produce many w,
      Nested_schema (Nested___init__ (NestedFactory produce) many) w =
        match produce with
        | Raise e =>
            (log_events [FactoryCalled] w, Nested___init__ (NestedFactory produce) many,
             Raise e)
        | Ok v =>
            let '(w1, resolved, r) :=
              Nested_schema (Nested___init__ (NestedDirect v) many)
                            (log_events [FactoryCalled] w) in
            (w1, mkNested (NestedFactory produce) many (_schema resolved), r)
        end) ∧
  (forall self w w1 self1 s,
      Nested_schema self w = (w1, self1, Ok s) ->
      _schema self1 = Some s ∧ nested self1 = nested self ∧
      nested_many self1 = nested_many self) ∧
  (forall self s w,
      _schema self = Some s -> Nested_schema self w = (w, self, Ok s)).
Proof.
  assert (Hname : forall n many w lines c,
             get_class n (w_registry w) = (lines, Ok c) ->
             Nested_schema (Nested___init__ (NestedDirect (NestedName n)) many) w =
               (mkWorld (w_registry w) (S (w_next w))
                        (w_trace w ++ RegistryLookup n :: map Printed lines
                                   ++ [Constructed c many (w_next w)]),
                mkNested (NestedDirect (NestedName n)) many
                         (Some (mkSchemaObj (w_next w) c many)),
                Ok (mkSchemaObj (w_next w) c many))).
  { intros n many w lines c Hget. unfold Nested_schema, Nested___init__. simpl.
    rewrite Hget. simpl. now rewrite <- app_assoc. }
  split; [reflexivity|].
  split; [reflexivity|].
  split; [reflexivity|].
  split; [exact Hname|].
  split.
  { intros n many w lines e Hget. unfold Nested_schema, Nested___init__. simpl.
    now rewrite Hget. }
  split.
  { intros n many reg c next trace Hfresh.
    apply (Hname n many (mkWorld (register n c reg) next trace) [] c).
    simpl. unfold get_class. rewrite register_lookup_classname, Hfresh. reflexivity. }
  split; [reflexivity|].
  split.
  { intros produce many w. destruct produce as [v|e]; [|reflexivity].
    destruct v as [s|c|n|]; try reflexivity.
    unfold Nested_schema, Nested___init__. simpl.
    destruct (get_class n (w_registry w)) as [lines [c|e]]; reflexivity. }
  split.
  { intros self w w1 self1 s H.
    split; [exact (Nested_schema_caches self w w1 self1 s H)|].
    revert H. unfold Nested_schema.
    destruct (_schema self) as [s0|]; [now intros [= <- <- <-]|].
    destruct (nested self) as [v|[v|e]]; try discriminate;
      destruct v as [s0|c|n|]; simpl; try discriminate;
      try (now intros [= <- <- <-]);
      destruct (get_class n _) as [lines [c|e]]; try discriminate;
      now intros [= <- <- <-]. }
  intros self s w H. now apply Nested_schema_cached.
Qed.

Lemma nested_schema_lazy_and_memoized_witness :
  let B := mkSchemaType "app.schemas" 7 in
  let field_in_A := Nested___init__ (NestedDirect (NestedName "B")) false in
  let at_use := mkWorld (register "B" B ∅) 0 [] in
  let later := mkWorld ∅ 5 [FactoryCalled] in
  let b := mkSchemaObj 0 B false in
  let resolved := mkNested (NestedDirect (NestedName "B")) false (Some b) in
  _schema field_in_A = None ∧
  Nested_schema field_in_A at_use =
    (mkWorld (register "B" B ∅) 1 [RegistryLookup "B"; Constructed B false 0],
     resolved, Ok b) ∧
  Nested_schema resolved later = (later, resolved, Ok b).
Proof.
  intros B field_in_A at_use later b resolved.
  pose proof nested_schema_lazy_and_memoized
    as (Hinit & _ & _ & _ & _ & Hforward & _ & _ & Hcache & Hmemo).
  pose proof (Hforward "B" false ∅ B 0 [] (lookup_empty "B")) as Hresolve.
  split; [apply Hinit|].
  split; [exact Hresolve|].
  apply Hmemo.
  exact (proj1 (Hcache field_in_A at_use _ resolved b Hresolve)).
Defined.
End NestedFacts.

(** ** The registry, continued *)

Section RegistryMore.
Implicit Types (reg : gmap string (list SchemaType)) (c : SchemaType).

(** X1.  Registering a class a second time under the same name changes
    nothing. *)
Theorem register_twice_is_register_once reg classname c :
  register classname c (register classname c reg) = register classname c reg.
Proof.
  destruct (register_classname_has_module reg classname c) as (l & Hl & Hmod & _).
  pose proof (register_lookup_fullpath reg classname c) as Hfull.
  set (r := register classname c reg) in *.
  unfold register at 1. rewrite Hl.
  assert (any_same_module (cls_module c) l = true) as ->
    by now apply any_same_module_true.
  simpl. rewrite Hfull. now apply insert_id.
Qed.

Lemma register_appends_to_simple_name reg classname c key classes :
  has_dot key = false ->
  reg !! key = Some classes ->
  exists more, register classname c reg !! key = Some (classes ++ more).
Proof.
  intros Hdot Hl.
  assert (Hne : key ≠ fullpath_of (cls_module c) classname).
  { intros ->. rewrite fullpath_has_dot in Hdot. discriminate. }
  destruct (decide (key = classname)) as [->|Hkey].
  - rewrite register_lookup_classname, Hl.
    destruct (any_same_module (cls_module c) classes).
    + exists []. now rewrite app_nil_r.
    + now exists [c].
  - rewrite register_lookup_other by assumption.
    exists []. now rewrite app_nil_r.
Qed.

Lemma register_all_appends_to_simple_name (defs : list (string * SchemaType)) :
  forall reg key classes,
    has_dot key = false ->
    reg !! key = Some classes ->
    exists more, register_all defs reg !! key = Some (classes ++ more).
Proof.
  induction defs as [|[n c] defs IH]; intros reg key classes Hdot Hl; simpl.
  - exists []. now rewrite app_nil_r.
  - destruct (register_appends_to_simple_name reg n c key classes Hdot Hl) as [m1 H1].
    destruct (IH _ key _ Hdot H1) as [m2 H2].
    exists (m1 ++ m2). now rewrite app_assoc.
Qed.

Lemma get_class_ambiguous reg key :
  get_class key reg = AmbiguousNameError key <->
  exists classes, reg !! key = Some classes ∧ 1 < List.length classes.
Proof.
  unfold get_class, AmbiguousNameError. split.
  - destruct (reg !! key) as [classes|]; [|discriminate].
    destruct (Nat.ltb 1 (List.length classes)) eqn:Hlen.
    + intros _. exists classes. split; [reflexivity | now apply Nat.ltb_lt].
    + destruct classes; discriminate.
  - intros (classes & -> & Hlen). apply Nat.ltb_lt in Hlen. now rewrite Hlen.
Qed.

(** X2.  Under a name without dot, registrations only append: the classes
    listed keep their place, so a simple name that is ambiguous stays
    ambiguous whatever is registered later. *)
Theorem simple_name_only_grows reg (defs : list (string * SchemaType)) key :
  has_dot key = false ->
  (forall classes, reg !! key = Some classes ->
     exists more, register_all defs reg !! key = Some (classes ++ more)) ∧
  (get_class key reg = AmbiguousNameError key ->
   get_class key (register_all defs reg) = AmbiguousNameError key).
Proof.
  intros Hdot. split.
  - intros classes Hl. now apply register_all_appends_to_simple_name.
  - intros (classes & Hl & Hlen)%get_class_ambiguous.
    destruct (register_all_appends_to_simple_name defs reg key classes Hdot Hl)
      as [more Hmore].
    apply get_class_ambiguous. exists (classes ++ more). split; [exact Hmore|].
    rewrite length_app. lia.
Qed.

Lemma simple_name_only_grows_witness :
  let a := mkSchemaType "app.users" 1 in
  let b := mkSchemaType "app.orders" 2 in
  let c := mkSchemaType "app.items" 3 in
  let reg := register "Item" b (register "Item" a ∅) in
  get_class "Item" (register_all [("Item", c); ("Other", a)] reg)
  = AmbiguousNameError "Item".
Proof.
  intros a b c reg.
  apply (simple_name_only_grows reg [("Item", c); ("Other", a)] "Item"); reflexivity.
Defined.

Lemma register_keeps_one_per_module reg classname c :
  one_per_module reg -> one_per_module (register classname c reg).
Proof.
  intros Hinv key classes Hl.
  destruct (decide (key = fullpath_of (cls_module c) classname)) as [->|Hfull].
  - rewrite register_lookup_fullpath in Hl. injection Hl as <-.
    simpl. repeat constructor. intros [].
  - destruct (decide (key = classname)) as [->|Hkey].
    + rewrite register_lookup_classname in Hl.
      destruct (reg !! classname) as [old|] eqn:Hold.
      * destruct (any_same_module (cls_module c) old) eqn:Hany;
          injection Hl as <-; [now apply (Hinv classname)|].
        rewrite map_app. apply List.NoDup_app.
        -- now apply (Hinv classname).
        -- simpl. repeat constructor. intros [].
        -- intros m Hm [<-|[]].
           apply in_map_iff in Hm as (x & Hx & Hin).
           assert (any_same_module (cls_module c) old = true)
             by (apply any_same_module_true; eauto).
           congruence.
      * injection Hl as <-. simpl. repeat constructor. intros [].
    + rewrite register_lookup_other in Hl by assumption. now apply (Hinv key).
Qed.

(** X3.  Whatever classes are defined, starting from the empty registry,
    no list of the registry holds two classes of the same module. *)
Theorem registry_lists_one_class_per_module (defs : list (string * SchemaType)) :
  one_per_module (register_all defs ∅).
Proof.
  assert (H : forall reg, one_per_module reg -> one_per_module (register_all defs reg)).
  { induction defs as [|[n c] defs IH]; intros reg Hinv; simpl; [exact Hinv|].
    apply IH. now apply register_keeps_one_per_module. }
  apply H. intros key classes Hl. rewrite lookup_empty in Hl. discriminate.
Qed.
End RegistryMore.

(** ** Validator chains *)

Section AndMore.
Implicit Types (validators : list validator) (value : pyval) (name : option string).

(** X4.  A validator chain accepts a value exactly when every validator
    returns without raising and no callable that is not a [Validator]
    returns [False]; it then hands back the value it was given. *)
Theorem And_accepts_iff validators value name r :
  And___call__ validators value name = Ok r <->
  r = value ∧
  Forall (fun v => exists x, call v value name = Ok x ∧
                             ¬ (is_Validator v = false ∧ x = VBool false)) validators.
Proof.
  induction validators as [|v rest IH]; simpl.
  - split; [intros [= <-]; auto | intros [-> _]; reflexivity].
  - destruct (call v value name) as [x|e] eqn:Hcall; simpl.
    + destruct (negb (is_Validator v) && is_False x) eqn:Hrej.
      * split; [discriminate|]. intros [_ Hall].
        inversion Hall as [|? ? (y & Hy1 & Hy) _]; subst.
        rewrite Hcall in Hy1. injection Hy1 as <-.
        apply andb_true_iff in Hrej as [Hv Hx]. exfalso. apply Hy.
        split; [now apply negb_true_iff|].
        destruct x as [| |[|]| | | | |]; simpl in Hx; congruence.
      * rewrite IH. split; intros [-> Hall]; split; auto.
        -- constructor; [|exact Hall]. exists x. split; [exact Hcall|].
           intros [Hv ->]. rewrite Hv in Hrej. discriminate.
        -- now inversion Hall.
    + split; [discriminate|]. intros [_ Hall].
      inversion Hall as [|? ? (y & Hy & _) _]; subst. congruence.
Qed.

(** X5.  A validator chain stops at its first failing validator: when the
    validators before it accept, the chain raises what that validator
    raises, or the invalid-arguments error when it is a plain callable
    that returns [False], whatever validators follow. *)
Theorem And_stops_at_first_failure pre v post value name :
  (exists r, And___call__ pre value name = Ok r) ->
  (forall e, call v value name = Raise e ->
     And___call__ (pre ++ v :: post) value name = Raise e) ∧
  (is_Validator v = false -> call v value name = Ok (VBool false) ->
     And___call__ (pre ++ v :: post) value name
     = Raise (ValidationError ["Invalid arguments"])).
Proof.
  intros [r Hpre].
  assert (Happ : And___call__ (pre ++ v :: post) value name
                 = And___call__ (v :: post) value name).
  { revert Hpre. induction pre as [|p pre IH]; simpl; [reflexivity|].
    destruct (call p value name) as [x|e]; simpl; [|discriminate].
    destruct (negb (is_Validator p) && is_False x); [discriminate | exact IH]. }
  rewrite Happ. simpl. split.
  - intros e ->. reflexivity.
  - intros -> ->. reflexivity.
Qed.

Lemma And_stops_at_first_failure_witness :
  let accept := mkValidator true (fun v _ => Ok v) in
  let plain := mkValidator false (fun _ _ => Ok (VBool false)) in
  let never := mkValidator true (fun _ _ => Raise (PyValueError "not reached")) in
  And___call__ [accept; plain; never] (VInt 3) (Some "n")
  = Raise (ValidationError ["Invalid arguments"]).
Proof.
  intros accept plain never.
  apply (And_stops_at_first_failure [accept] plain [never] (VInt 3) (Some "n"));
    [eexists; reflexivity | reflexivity | reflexivity].
Defined.

Lemma And_accepts_iff_witness :
  let accept := mkValidator true (fun v _ => Ok (VBool false)) in
  And___call__ [accept; accept] (VInt 3) (Some "n") = Ok (VInt 3).
Proof.
  intros accept.
  apply (And_accepts_iff [accept; accept] (VInt 3) (Some "n") (VInt 3)).
  split; [reflexivity|].
  repeat constructor; exists (VBool false); (split; [reflexivity | intros [? _]; discriminate]).
Defined.
End AndMore.

(** ** Fields, continued *)

Section FieldMore.
Implicit Types (self : field) (value data : pyval) (attr : option string).

(** X6.  On a missing, empty or [None] value, a field that is not
    required, or whose default is true, returns its default (calling it
    when it is a callable): the value is neither coerced nor handed to
    the validators, and the only call made is the one on the field. *)
Theorem absent_value_returns_default self value attr data :
  is_absent value = true ->
  f_required self = false ∨ default_truthy (f_load_default self) = true ->
  Field_deserialize self value attr data =
    ([DeserializeCall (f_name self) value], default_result (f_load_default self)).
Proof.
  intros Habs Hok. rewrite Field_deserialize_unfold.
  unfold Field__validate_missing. rewrite Habs.
  assert (Hgate : (true && f_required self = false) ∨
                  default_truthy (f_load_default self) = true) by (simpl; exact Hok).
  destruct (true && f_required self), (default_truthy (f_load_default self));
    try (destruct Hgate; discriminate);
    simpl; destruct (default_result (f_load_default self)); reflexivity.
Qed.

Lemma absent_value_returns_default_witness :
  let never := mkValidator true (fun _ _ => Raise (ValidationError ["rejected"])) in
  let tags := mkField (Some "tags") false (DefaultValue (VList [])) [never]
                (KList (mkField (Some "tags") true no_default [] KBoolean)) in
  Field_deserialize tags VNone (Some "tags") (VDict [])
  = ([DeserializeCall (Some "tags") VNone], Ok (VList [])).
Proof.
  intros never tags.
  apply (absent_value_returns_default tags VNone (Some "tags") (VDict []));
    [reflexivity | left; reflexivity].
Defined.






End FieldMore.

Section ListMore.
Variable inner_deserialize : pyval -> M pyval.
Variable name : option string.

Lemma List_loop_accepts_iff (items : list pyval) : forall idx outs,
  outcome (List_loop inner_deserialize name idx items) = Ok outs <->
  Forall2 (fun each out => outcome (inner_deserialize each) = Ok out) items outs.
Proof.
  induction items as [|each items IH]; intros idx outs; simpl.
  - split.
    + intros [= <-]. constructor.
    + intros H. inversion H. reflexivity.
  - destruct (inner_deserialize each) as [log [v|e]] eqn:Hin; simpl.
    + destruct (List_loop inner_deserialize name (S idx) items) as [log' [vs|e]] eqn:Hl;
        simpl.
      * split.
        -- intros [= <-]. constructor; [now rewrite Hin|]. apply (IH (S idx)).
           now rewrite Hl.
        -- intros H. inversion H as [|? o ? os Ho Hos]; subst. rewrite Hin in Ho.
           simpl in Ho. injection Ho as <-. apply (IH (S idx)) in Hos.
           rewrite Hl in Hos. simpl in Hos. congruence.
      * split; [discriminate|].
        intros H. inversion H as [|? o ? os Ho Hos]; subst.
        apply (IH (S idx)) in Hos. rewrite Hl in Hos. discriminate.
    + split; [discriminate|]. intros H. inversion H as [|? o ? os Ho Hos]; subst.
      rewrite Hin in Ho. discriminate.
Qed.
End ListMore.

(** X8.  A list field accepts a sequence exactly when its inner field
    accepts every element and the validators accept the resulting list;
    the output then has one element per input element, in the same order,
    each the output of the inner field. *)
Theorem list_field_accepts_iff name required load_default validators inner
    (items : list pyval) attr data out :
  outcome (Field_deserialize (mkField name required load_default validators (KList inner))
             (VList items) attr data) = Ok out <->
  (exists outs,
      out = VList outs ∧
      Forall2 (fun each o => outcome (Field_deserialize inner each None VNone) = Ok o)
              items outs) ∧
  (exists r, And___call__ validators out name = Ok r).
Proof.
  rewrite Field_deserialize_unfold. unfold Field__validate_missing. simpl.
  unfold Field__deserialize, List__deserialize. simpl.
  pose proof (List_loop_accepts_iff
                (fun each => Field_deserialize inner each None VNone) name items 0) as Hloop.
  destruct (List_loop (fun each => Field_deserialize inner each None VNone) name 0 items)
    as [log [outs|e]]; simpl in *.
  - unfold Field__validate. simpl.
    destruct (And___call__ validators (VList outs) name) as [r|e] eqn:Hand; simpl.
    + split.
      * intros [= <-]. split; [|eauto]. exists outs. split; [reflexivity|].
        now apply Hloop.
      * intros [(outs' & -> & Hall) _]. apply Hloop in Hall. congruence.
    + split; [discriminate|].
      intros [(outs' & -> & Hall) [r Hr]]. apply Hloop in Hall.
      injection Hall as <-. congruence.
  - split; [discriminate|].
    intros [(outs' & -> & Hall) _]. apply Hloop in Hall. discriminate.
Qed.

Lemma list_field_accepts_iff_witness :
  let flags := mkField (Some "flags") false no_default []
                 (KList (mkField (Some "flags") false no_default [] KBoolean)) in
  outcome (Field_deserialize flags (VList [VStr "yes"; VInt 0]) (Some "flags") (VDict []))
  = Ok (VList [VBool true; VBool false]).
Proof.
  intros flags.
  apply (list_field_accepts_iff (Some "flags") false no_default []
           (mkField (Some "flags") false no_default [] KBoolean)).
  split; [|eexists; reflexivity].
  eexists. split; [reflexivity|]. repeat constructor.
Defined.

(** ** Loading, continued *)

Section LoadMore.
Variable self : Schema.

Lemma deserialize_each_accepts_iff (items : list pyval) : forall outs,
  outcome (deserialize_each self items) = Ok outs <->
  Forall2 (fun d o => outcome (Schema__deserialize_one self d) = Ok o) items outs.
Proof.
  induction items as [|d items IH]; intros outs; simpl.
  - split; [intros [= <-]; constructor | intros H; now inversion H].
  - destruct (Schema__deserialize_one self d) as [log [v|e]] eqn:Hd; simpl.
    + destruct (deserialize_each self items) as [log' [vs|e]] eqn:Hl; simpl.
      * split.
        -- intros [= <-]. constructor; [now rewrite Hd|]. now apply IH.
        -- intros H. inversion H as [|? o ? os Ho Hos]; subst. rewrite Hd in Ho.
           simpl in Ho. injection Ho as <-. apply IH in Hos. simpl in Hos. congruence.
      * split; [discriminate|].
        intros H. inversion H as [|? o ? os Ho Hos]; subst.
        apply IH in Hos. discriminate.
    + split; [discriminate|]. intros H. inversion H as [|? o ? os Ho Hos]; subst.
      rewrite Hd in Ho. discriminate.
Qed.

(** X9.  With [many=True], [load] accepts its input exactly when the input
    is a sequence and loading each element on its own (with [many=False])
    succeeds; the output is the sequence of those outputs, in the same
    order. *)
Theorem load_many_accepts_iff data out :
  outcome (Schema_load self data (Some true)) = Ok out <->
  exists items outs,
    data = VList items ∧ out = VList outs ∧
    Forall2 (fun d o => outcome (Schema_load self d (Some false)) = Ok o) items outs.
Proof.
  unfold Schema_load, Schema__deserialize.
  destruct data as [| | | | | |items|]; simpl;
    try (split; [discriminate | intros (? & ? & [=] & _)]).
  pose proof (deserialize_each_accepts_iff items) as Heach.
  destruct (deserialize_each self items) as [log [outs|e]]; simpl in *.
  - split.
    + intros [= <-]. exists items, outs. repeat split. now apply Heach.
    + intros (items' & outs' & [= <-] & -> & Hall). apply Heach in Hall. congruence.
  - split; [discriminate|].
    intros (items' & outs' & [= <-] & -> & Hall). apply Heach in Hall. discriminate.
Qed.


(** X10.  With [many=True], [load] stops at the first element that fails
    to load and raises that element's exception as it is, without the
    element's position; the calls made are those of the elements up to
    that one. *)
Theorem load_many_stops_at_first_failure (pre : list pyval) x post e :
  Forall (fun d => exists o, outcome (Schema_load self d (Some false)) = Ok o) pre ->
  outcome (Schema_load self x (Some false)) = Raise e ->
  Schema_load self (VList (pre ++ x :: post)) (Some true) =
    (concat (map (fun d => calls (Schema_load self d (Some false))) (pre ++ [x])),
     Raise e).
Proof.
  unfold Schema_load, Schema__deserialize. intros Hpre Hx.
  assert (Heach : deserialize_each self (pre ++ x :: post) =
            (concat (map (fun d => calls (Schema__deserialize_one self d)) (pre ++ [x])),
             Raise e)).
  { induction pre as [|d pre IH]; simpl.
    - destruct (Schema__deserialize_one self x) as [log [v|e']]; simpl in Hx;
        [discriminate|]. injection Hx as ->. simpl. now rewrite app_nil_r.
    - inversion Hpre as [|? ? [o Ho] Hpre']; subst.
      destruct (Schema__deserialize_one self d) as [log [v|e']]; simpl in Ho;
        [|discriminate].
      rewrite (IH Hpre'). reflexivity. }
  rewrite Heach. reflexivity.
Qed.

End LoadMore.

Lemma load_many_accepts_iff_witness :
  let flag := mkSchema false [("on", mkField (Some "on") true no_default [] KBoolean)] in
  outcome (Schema_load flag (VList [VDict [("on", VStr "y")]; VDict [("on", VInt 0)]])
             (Some true))
  = Ok (VList [VDict [("on", VBool true)]; VDict [("on", VBool false)]]).
Proof.
  intros flag. apply (load_many_accepts_iff flag).
  eexists _, _. split; [reflexivity|]. split; [reflexivity|]. repeat constructor.
Defined.

Lemma load_many_stops_at_first_failure_witness :
  let flag := mkSchema false [("on", mkField (Some "on") true no_default [] KBoolean)] in
  Schema_load flag (VList [VDict [("on", VStr "y")]; VDict []; VInt 3]) (Some true)
  = ([DeserializeCall (Some "on") (VStr "y"); DeserializeCall (Some "on") VMissing],
     Raise (ParseError "Field on is required")).
Proof.
  intros flag.
  apply (load_many_stops_at_first_failure flag [VDict [("on", VStr "y")]] (VDict [])
           [VInt 3]).
  - repeat constructor. eexists. reflexivity.
  - reflexivity.
Defined.

Section OutputMore.
Variable entries : list (string * pyval).
Local Abbreviation data := (VDict entries).

Lemma walk_fields_output (fields : list (string * field)) : forall ret_d log ret_d',
  List.NoDup (dict_keys ret_d ++ map fst fields) ->
  Forall (fun declared => has_dot (fst declared) = false) fields ->
  walk_fields fields entries data ret_d = (log, Ok ret_d') ->
  ret_d' = ret_d ++ produced_entries entries fields.
Proof.
  induction fields as [|[n f] fields IH]; intros ret_d log ret_d' Hnd Hdot Hwalk.
  - simpl in Hwalk. injection Hwalk as _ <-. simpl. now rewrite app_nil_r.
  - inversion Hdot as [|? ? Hn Hdot']; subst. simpl in Hn.
    cbn [walk_fields] in Hwalk.
    unfold produced_entries. cbn [flat_map]. unfold field_output at 1. cbn [fst snd].
    destruct (Field_deserialize f (mapping_get entries n VMissing) (Some n) data)
      as [lf [v|e]]; [|discriminate].
    unfold bind at 1 in Hwalk. cbn [outcome snd].
    destruct (is_missing v) eqn:Hmiss.
    + destruct (walk_fields fields entries data ret_d) as [lw [r|e]] eqn:Hw;
        unfold bind, ret in Hwalk; rewrite Hw in Hwalk; [|discriminate].
      injection Hwalk as _ <-. simpl.
      apply (IH ret_d lw r); auto.
      simpl in Hnd. now apply List.NoDup_remove_1 in Hnd.
    + rewrite (set_value_plain ret_d n v Hn) in Hwalk.
      assert (Hfresh : ¬ In n (dict_keys ret_d)).
      { simpl in Hnd. apply List.NoDup_remove_2 in Hnd. intros Hin. apply Hnd.
        apply in_or_app. now left. }
      rewrite (dict_set_fresh ret_d n v Hfresh) in Hwalk.
      destruct (walk_fields fields entries data (ret_d ++ [(n, v)])) as [lw [r|e]] eqn:Hw;
        unfold bind, lift in Hwalk; rewrite Hw in Hwalk; [|discriminate].
      injection Hwalk as _ <-.
      rewrite (IH (ret_d ++ [(n, v)]) lw r); auto.
      * simpl. now rewrite <- app_assoc.
      * unfold dict_keys in *. rewrite map_app. simpl. rewrite <- app_assoc. exact Hnd.
Qed.

(** X11.  When [load] succeeds on a mapping, for field names without dot,
    the output holds exactly one entry per declared field whose output is
    not [missing], in declaration order, under the field's name: keys of
    the input that are not declared never reach the output. *)
Theorem load_output_entries (self : Schema) out :
  many self = false ->
  List.NoDup (map fst (load_fields self)) ->
  Forall (fun declared => has_dot (fst declared) = false) (load_fields self) ->
  outcome (Schema_load self data None) = Ok out ->
  out = VDict (produced_entries entries (load_fields self)).
Proof.
  intros Hmany Hnd Hdot. unfold Schema_load, Schema__deserialize. rewrite Hmany.
  unfold Schema__deserialize_one.
  destruct (walk_fields (load_fields self) entries data []) as [log [r|e]] eqn:Hw;
    simpl; [|discriminate].
  intros [= <-]. f_equal.
  apply (walk_fields_output (load_fields self) [] log r); auto.
Qed.
End OutputMore.

Lemma load_output_entries_witness :
  let named := fun n => mkField (Some n) false no_default [] KBoolean in
  let self := mkSchema false [("a", named "a"); ("b", named "b"); ("c", named "c")] in
  outcome (Schema_load self (VDict [("x", VInt 9); ("c", VInt 0); ("a", VStr "y")]) None)
  = Ok (VDict [("a", VBool true); ("c", VBool false)]).
Proof.
  intros named self.
  assert (H : exists out,
             outcome (Schema_load self (VDict [("x", VInt 9); ("c", VInt 0); ("a", VStr "y")])
                        None) = Ok out) by (eexists; reflexivity).
  destruct H as [out Hout]. rewrite Hout. f_equal.
  apply (load_output_entries [("x", VInt 9); ("c", VInt 0); ("a", VStr "y")] self out);
    [reflexivity | | | exact Hout].
  - repeat constructor; simpl; intuition discriminate.
  - repeat constructor.
Defined.

(** X12.  A nested field declared with [many=True] over a schema instance
    whose own [many] is false rejects every value: sequences are refused by
    the schema, which expects a mapping, and everything else by the field,
    which expects a sequence; no field of the schema is asked to
    deserialize. *)
Theorem nested_many_over_single_schema_rejects_all name (schema : Schema) value :
  many schema = false ->
  Nested__deserialize name true schema value =
    ([], Raise (ValidationError
                  [if is_collection value then "Except data is an objects"
                   else "Field " +:+ fmt_name name +:+ " must be iterable"])).
Proof.
  intros Hmany. unfold Nested__deserialize, Schema_load, Schema__deserialize.
  rewrite Hmany. simpl. destruct value; reflexivity.
Qed.

Lemma nested_many_over_single_schema_rejects_all_witness :
  let child := mkSchema false [("name", mkField (Some "name") true no_default []
                                           (KString false))] in
  Nested__deserialize (Some "children") true child (VList [VDict [("name", VStr "x")]])
  = ([], Raise (ValidationError ["Except data is an objects"])).
Proof.
  intros child.
  apply (nested_many_over_single_schema_rejects_all (Some "children") child
           (VList [VDict [("name", VStr "x")]])).
  reflexivity.
Defined.

(** ** [set_value] and [get_value] *)

Section AccessFacts.

Lemma split_first_dot_has_dot (key : string) :
  has_dot key = match split_first_dot key with Some _ => true | None => false end.
Proof.
  induction key as [|c key IH]; simpl; [reflexivity|].
  destruct (Ascii.eqb c "."%char); simpl; [reflexivity|].
  rewrite IH. now destruct (split_first_dot key) as [[h t]|].
Qed.






(** *** [set_value] on dict objects *)

Lemma contents_app_empty {A : Type} (h : dict_objects.dicts A) m :
  dict_objects.contents (h ++ [[]]) m = dict_objects.contents h m.
Proof.
  unfold dict_objects.contents.
  destruct (Nat.lt_ge_cases m (List.length h)) as [Hlt|Hge].
  - now rewrite lookup_app_l.
  - rewrite lookup_app_r by exact Hge. rewrite (lookup_ge_None_2 h m Hge).
    destruct (m - List.length h) as [|[|n]]; reflexivity.
Qed.

Lemma contents_setitem_ne {A : Type} (h : dict_objects.dicts A) dct key value m :
  m ≠ dct ->
  dict_objects.contents (dict_objects.setitem h dct key value) m = dict_objects.contents h m.
Proof.
  intros Hne. unfold dict_objects.contents, dict_objects.setitem.
  now rewrite list_lookup_insert_ne by congruence.
Qed.

Lemma contents_setitem_eq {A : Type} (h : dict_objects.dicts A) dct key value :
  dct < List.length h ->
  dict_objects.contents (dict_objects.setitem h dct key value) dct
  = dict_set (dict_objects.contents h dct) key value.
Proof.
  intros Hlt. unfold dict_objects.setitem.
  unfold dict_objects.contents at 1. now rewrite list_lookup_insert_eq.
Qed.

(** An assignment changes the entry under its key in its dict, and no other
    entry. *)
Lemma setitem_frame {A : Type} (h : dict_objects.dicts A) dct key value m k :
  (m, k) ≠ (dct, key) ->
  dict_get (dict_objects.contents (dict_objects.setitem h dct key value) m) k
  = dict_get (dict_objects.contents h m) k.
Proof.
  intros Hne. destruct (Nat.eq_dec m dct) as [->|Hm].
  - destruct (Nat.lt_ge_cases dct (List.length h)) as [Hlt|Hge].
    + rewrite contents_setitem_eq by exact Hlt. rewrite dict_get_set.
      destruct (String.eqb_spec key k) as [->|_]; [now destruct Hne|reflexivity].
    + unfold dict_objects.setitem. now rewrite list_insert_ge.
  - now rewrite contents_setitem_ne.
Qed.

Lemma length_setitem {A : Type} (h : dict_objects.dicts A) dct key value :
  List.length (dict_objects.setitem h dct key value) = List.length h.
Proof. unfold dict_objects.setitem. apply length_insert. Qed.

Lemma dict_get_In {V : Type} (d : list (string * V)) k v :
  dict_get d k = Some v -> In (k, v) d.
Proof.
  induction d as [|[k0 v0] d IH]; simpl; [discriminate|].
  destruct (String.eqb_spec k0 k) as [->|_].
  - intros [= ->]. now left.
  - intros H. right. now apply IH.
Qed.

Lemma closed_stored_exists {A : Type} (h : dict_objects.dicts A) m k t :
  closed h ->
  dict_get (dict_objects.contents h m) k = Some (dict_objects.DictObj t) ->
  t < List.length h.
Proof.
  intros Hclosed Hget. unfold dict_objects.contents in Hget.
  destruct (h !! m) as [d|] eqn:Hm; simpl in Hget; [|discriminate].
  apply dict_get_In in Hget.
  assert (Hd : In d h).
  { apply list_elem_of_In. eapply list_elem_of_lookup_2. exact Hm. }
  pose proof (proj1 (List.Forall_forall _ _) Hclosed d Hd) as Hall.
  exact (proj1 (List.Forall_forall _ _) Hall _ Hget).
Qed.

(** Below a dict that was just created, [set_value] writes into that dict
    and into dicts that it creates. *)
Lemma set_value_below_new {A : Type} fuel : forall (h : dict_objects.dicts A) t key value h' r,
  dict_objects.set_value_fuel fuel h t key value = (h', r) ->
  t < List.length h ->
  dict_objects.contents h t = [] ->
  forall m k, m < List.length h ->
    (m, k) ≠ (t, match split_first_dot key with Some (head, _) => head | None => key end) ->
    dict_get (dict_objects.contents h' m) k = dict_get (dict_objects.contents h m) k.
Proof.
  induction fuel as [|fuel IH]; intros h t key value h' r Hrun Ht Hempty m k Hm Hne;
    cbn [dict_objects.set_value_fuel] in Hrun;
    destruct (split_first_dot key) as [[head rest]|] eqn:Hsplit.
  - unfold dict_objects.setdefault in Hrun. rewrite Hempty in Hrun. simpl in Hrun.
    injection Hrun as <- _.
    rewrite setitem_frame by exact Hne. now rewrite contents_app_empty.
  - injection Hrun as <- _. now apply setitem_frame.
  - unfold dict_objects.setdefault in Hrun. rewrite Hempty in Hrun. simpl in Hrun.
    set (h1 := dict_objects.setitem (h ++ [[]]) t head (dict_objects.DictObj (List.length h)))
      in Hrun.
    assert (Hlen : List.length h1 = S (List.length h)).
    { unfold h1. rewrite length_setitem, length_app. simpl. lia. }
    rewrite (IH h1 (List.length h) rest value h' r Hrun).
    + unfold h1. rewrite setitem_frame by exact Hne. now rewrite contents_app_empty.
    + lia.
    + unfold h1. rewrite contents_setitem_ne by lia. rewrite contents_app_empty.
      unfold dict_objects.contents. now rewrite lookup_ge_None_2.
    + lia.
    + intros [= -> _]. lia.
  - injection Hrun as <- _. now apply setitem_frame.
Qed.

(** Below a dict that was just created, [set_value] does not raise. *)
Lemma set_value_below_new_succeeds {A : Type} fuel :
  forall (h : dict_objects.dicts A) t key value,
  String.length key <= fuel ->
  t < List.length h ->
  dict_objects.contents h t = [] ->
  snd (dict_objects.set_value_fuel fuel h t key value) = Ok tt.
Proof.
  induction fuel as [|fuel IH]; intros h t key value Hfuel Ht Hempty;
    cbn [dict_objects.set_value_fuel];
    destruct (split_first_dot key) as [[head rest]|] eqn:Hsplit; try reflexivity.
  - apply split_first_dot_shorter in Hsplit. lia.
  - unfold dict_objects.setdefault. rewrite Hempty. simpl.
    apply IH.
    + apply split_first_dot_shorter in Hsplit. lia.
    + rewrite length_setitem, length_app. simpl. lia.
    + rewrite contents_setitem_ne by lia. rewrite contents_app_empty.
      unfold dict_objects.contents. now rewrite lookup_ge_None_2.
Qed.

Lemma set_value_fuel_frame {A : Type} fuel : forall (h : dict_objects.dicts A) dct key value h' r,
  closed h -> dct < List.length h ->
  dict_objects.set_value_fuel fuel h dct key value = (h', r) ->
  forall m k, m < List.length h -> (m, k) ≠ write_site_fuel fuel h dct key ->
    dict_get (dict_objects.contents h' m) k = dict_get (dict_objects.contents h m) k.
Proof.
  induction fuel as [|fuel IH]; intros h dct key value h' r Hclosed Hdct Hrun m k Hm Hne;
    cbn [dict_objects.set_value_fuel] in Hrun; cbn [write_site_fuel] in Hne;
    destruct (split_first_dot key) as [[head rest]|] eqn:Hsplit;
    try (injection Hrun as <- _; now apply setitem_frame);
    unfold dict_objects.setdefault in Hrun;
    destruct (dict_get (dict_objects.contents h dct) head) as [[a|t]|] eqn:Hhead;
    try (injection Hrun as <- _; reflexivity).
  - simpl in Hrun. injection Hrun as <- _.
    rewrite setitem_frame by exact Hne. now rewrite contents_app_empty.
  - exact (IH h t rest value h' r Hclosed (closed_stored_exists h dct head t Hclosed Hhead)
             Hrun m k Hm Hne).
  - simpl in Hrun.
    set (h1 := dict_objects.setitem (h ++ [[]]) dct head (dict_objects.DictObj (List.length h)))
      in Hrun.
    assert (Hlen : List.length h1 = S (List.length h)).
    { unfold h1. rewrite length_setitem, length_app. simpl. lia. }
    rewrite (set_value_below_new fuel h1 (List.length h) rest value h' r Hrun).
    + unfold h1. rewrite setitem_frame by exact Hne. now rewrite contents_app_empty.
    + lia.
    + unfold h1. rewrite contents_setitem_ne by lia. rewrite contents_app_empty.
      unfold dict_objects.contents. now rewrite lookup_ge_None_2.
    + lia.
    + intros [= -> _]. lia.
Qed.

Lemma set_value_fuel_raise {A : Type} fuel : forall (h : dict_objects.dicts A) dct key value h' e,
  closed h -> String.length key <= fuel -> dct < List.length h ->
  dict_objects.set_value_fuel fuel h dct key value = (h', Raise e) -> h' = h.
Proof.
  induction fuel as [|fuel IH]; intros h dct key value h' e Hclosed Hfuel Hdct Hrun;
    cbn [dict_objects.set_value_fuel] in Hrun;
    destruct (split_first_dot key) as [[head rest]|] eqn:Hsplit; try discriminate;
    pose proof (split_first_dot_shorter key head rest Hsplit) as Hshort; try lia;
    unfold dict_objects.setdefault in Hrun;
    destruct (dict_get (dict_objects.contents h dct) head) as [[a|t]|] eqn:Hhead;
    try (now injection Hrun as <- _).
  - apply (IH h t rest value h' e Hclosed); [lia| |exact Hrun].
    exact (closed_stored_exists h dct head t Hclosed Hhead).
  - simpl in Hrun.
    pose proof (set_value_below_new_succeeds fuel
                  (dict_objects.setitem (h ++ [[]]) dct head
                     (dict_objects.DictObj (List.length h)))
                  (List.length h) rest value) as Hok.
    rewrite Hrun in Hok. simpl in Hok.
    assert (Raise e = Ok tt :> result unit) as Habs; [|discriminate].
    apply Hok.
    + lia.
    + rewrite length_setitem, length_app. simpl. lia.
    + rewrite contents_setitem_ne by lia. rewrite contents_app_empty.
      unfold dict_objects.contents. now rewrite lookup_ge_None_2.
Qed.

(** A dict stored under two keys is one object: what [set_value] stores
    through one of the keys is found through the other. *)
Lemma set_value_reaches_shared_dict {A : Type} (h : dict_objects.dicts A) dct head last
    other t value :
  has_dot head = false -> has_dot last = false ->
  t < List.length h ->
  dict_get (dict_objects.contents h dct) head = Some (dict_objects.DictObj t) ->
  dict_get (dict_objects.contents h dct) other = Some (dict_objects.DictObj t) ->
  t ≠ dct ->
  let h' := fst (dict_objects.set_value h dct (head +:+ "." +:+ last) value) in
  dict_get (dict_objects.contents h' dct) other = Some (dict_objects.DictObj t) ∧
  dict_get (dict_objects.contents h' t) last = Some value.
Proof.
  intros Hhead Hlast Ht Hget Hother Hne h'.
  assert (Hsplit : split_first_dot (head +:+ "." +:+ last) = Some (head, last)).
  { clear -Hhead. induction head as [|c head IH]; simpl in *; [reflexivity|].
    destruct (Ascii.eqb c "."%char); [discriminate|]. now rewrite IH. }
  assert (Hplain : split_first_dot last = None).
  { pose proof (split_first_dot_has_dot last) as H. rewrite Hlast in H.
    now destruct (split_first_dot last). }
  assert (Hrun : h' = dict_objects.setitem h t last value).
  { unfold h', dict_objects.set_value.
    destruct (String.length (head +:+ "." +:+ last)) as [|fuel] eqn:Hlen.
    - apply split_first_dot_shorter in Hsplit. lia.
    - cbn [dict_objects.set_value_fuel]. rewrite Hsplit.
      unfold dict_objects.setdefault. rewrite Hget.
      destruct fuel; cbn [dict_objects.set_value_fuel]; now rewrite Hplain. }
  rewrite Hrun. split.
  - now rewrite contents_setitem_ne by congruence.
  - rewrite contents_setitem_eq by exact Ht. rewrite dict_get_set.
    now rewrite String.eqb_refl.
Qed.

(** X14.  Among the entries of the dicts that exist before the call,
    [set_value] changes at most one, the one at its write site: every other
    entry of every dict, under the other top-level keys and anywhere else,
    holds what it held (a dict stored under a second key is the same
    object, so it shows what was written into it through the first); and a
    [set_value] that raises has changed nothing. *)
Theorem set_value_changes_one_entry {A : Type} (h : dict_objects.dicts A) dct key value h' r :
  closed h -> dct < List.length h ->
  dict_objects.set_value h dct key value = (h', r) ->
  (forall m k, m < List.length h -> (m, k) ≠ write_site h dct key ->
     dict_get (dict_objects.contents h' m) k = dict_get (dict_objects.contents h m) k) ∧
  (forall e, r = Raise e -> h' = h).
Proof.
  intros Hclosed Hdct Hrun. split.
  - intros m k Hm Hne.
    exact (set_value_fuel_frame _ h dct key value h' r Hclosed Hdct Hrun m k Hm Hne).
  - intros e ->.
    exact (set_value_fuel_raise _ h dct key value h' e Hclosed (Nat.le_refl _) Hdct Hrun).
Qed.

Lemma set_value_changes_one_entry_witness :
  let h := [[("a", dict_objects.DictObj 1); ("c", dict_objects.DictObj 2);
             ("n", dict_objects.NotDict (VInt 1))];
            [("x", dict_objects.NotDict (VInt 5))];
            [("x", dict_objects.NotDict (VInt 6))]] in
  let h' := fst (dict_objects.set_value h 0 "a.b.z" (dict_objects.NotDict (VInt 7))) in
  dict_get (dict_objects.contents h' 0) "c" = Some (dict_objects.DictObj 2) ∧
  dict_get (dict_objects.contents h' 1) "x" = Some (dict_objects.NotDict (VInt 5)) ∧
  dict_get (dict_objects.contents h' 2) "x" = Some (dict_objects.NotDict (VInt 6)) ∧
  fst (dict_objects.set_value h 0 "n.b" (dict_objects.NotDict (VInt 7))) = h.
Proof.
  intros h h'.
  assert (Hclosed : closed h) by (repeat constructor; simpl; lia).
  destruct (set_value_changes_one_entry h 0 "a.b.z" (dict_objects.NotDict (VInt 7))
              h' (snd (dict_objects.set_value h 0 "a.b.z" (dict_objects.NotDict (VInt 7))))
              Hclosed ltac:(simpl; lia) (surjective_pairing _)) as [Hframe _].
  destruct (set_value_changes_one_entry h 0 "n.b" (dict_objects.NotDict (VInt 7))
              (fst (dict_objects.set_value h 0 "n.b" (dict_objects.NotDict (VInt 7))))
              (snd (dict_objects.set_value h 0 "n.b" (dict_objects.NotDict (VInt 7))))
              Hclosed ltac:(simpl; lia) (surjective_pairing _)) as [_ Hraise].
  split; [|split; [|split]].
  - rewrite (Hframe 0 "c"); [reflexivity|simpl; lia|discriminate].
  - rewrite (Hframe 1 "x"); [reflexivity|simpl; lia|discriminate].
  - rewrite (Hframe 2 "x"); [reflexivity|simpl; lia|discriminate].
  - eapply Hraise. reflexivity.
Defined.
End AccessFacts.

(** ** Passwords *)

Section PasswordFacts.

Lemma str_any_spec (p : ascii -> bool) (s : string) :
  str_any p s = true <-> exists c, In c (list_ascii_of_string s) ∧ p c = true.
Proof.
  induction s as [|a s IH]; simpl.
  - split; [discriminate | intros (c & [] & _)].
  - rewrite orb_true_iff, IH. split.
    + intros [H|(c & Hin & Hc)]; [exists a | exists c]; auto.
    + intros (c & [<-|Hin] & Hc); [now left | right; eauto].
Qed.

Lemma str_all_false (p : ascii -> bool) (s : string) :
  str_all p s = false <-> exists c, In c (list_ascii_of_string s) ∧ p c = false.
Proof.
  induction s as [|a s IH]; simpl.
  - split; [discriminate | intros (c & [] & _)].
  - rewrite andb_false_iff, IH. split.
    + intros [H|(c & Hin & Hc)]; [exists a | exists c]; auto.
    + intros (c & [<-|Hin] & Hc); [now left | right; eauto].
Qed.

(** X15.  A [Password] validator accepts a text, and hands it back
    unchanged, exactly when the text is at least [length_min] long, is
    empty or holds a character that is not a digit, holds a digit when
    numbers are asked for, starts with an upper-case letter when upper case
    is asked for (an upper-case letter further on does not count), and
    holds one of the special characters when those are asked for. *)
Theorem Password_accepts_iff (self : Password) (value : string) name r :
  Password___call__ self value name = Ok r <->
  r = value ∧
  (length_min self <= Z.of_nat (String.length value))%Z ∧
  (value = "" ∨ exists c, In c (list_ascii_of_string value) ∧ is_digit c = false) ∧
  (cotain_number self = true ->
     exists c, In c (list_ascii_of_string value) ∧ is_digit c = true) ∧
  (cotain_uppercase self = true ->
     exists c rest, value = String c rest ∧ 65 <= nat_of_ascii c <= 90) ∧
  (cotain_special self = true ->
     exists c, In c (list_ascii_of_string value) ∧ In c SPECIAL_CHARACTERS).
Proof.
  assert (Hlen : Z.ltb (Z.of_nat (String.length value)) (length_min self) = false <->
                 (length_min self <= Z.of_nat (String.length value))%Z)
    by (rewrite Z.ltb_ge; tauto).
  assert (Honly : has_only_number value = false <->
                  (value = "" ∨ exists c, In c (list_ascii_of_string value)
                                          ∧ is_digit c = false)).
  { unfold has_only_number. rewrite andb_false_iff, negb_false_iff, String.eqb_eq.
    now rewrite str_all_false. }
  assert (Hnum : has_number value = true <->
                 exists c, In c (list_ascii_of_string value) ∧ is_digit c = true).
  { unfold has_number. rewrite str_any_spec.
    split; intros (c & Hin & Hc); exists c; split; auto.
    - now apply orb_true_iff in Hc as [|].
    - now rewrite Hc. }
  assert (Hup : has_uppercase_character value = true <->
                exists c rest, value = String c rest ∧ 65 <= nat_of_ascii c <= 90).
  { unfold has_uppercase_character. destruct value as [|c rest].
    - split; [discriminate | intros (? & ? & [=] & _)].
    - rewrite andb_true_iff, !Nat.leb_le. split.
      + intros H. exists c, rest. auto.
      + intros (c' & rest' & [= <- <-] & H). exact H. }
  assert (Hsp : has_special_character value = true <->
                exists c, In c (list_ascii_of_string value) ∧ In c SPECIAL_CHARACTERS).
  { unfold has_special_character. rewrite str_any_spec.
    split; intros (c & Hin & Hc); exists c; split; auto.
    - apply existsb_exists in Hc as (x & Hx & ->%Ascii.eqb_eq). exact Hx.
    - apply existsb_exists. exists c. split; [exact Hc | apply Ascii.eqb_refl]. }
  unfold Password___call__.
  destruct (Z.ltb (Z.of_nat (String.length value)) (length_min self)) eqn:E1;
  destruct (has_only_number value) eqn:E2;
  destruct (cotain_number self) eqn:C3; destruct (has_number value) eqn:E3;
  destruct (cotain_uppercase self) eqn:C4; destruct (has_uppercase_character value) eqn:E4;
  destruct (cotain_special self) eqn:C5; destruct (has_special_character value) eqn:E5;
  simpl;
  (split;
   [ try discriminate; intros [= <-];
     repeat split; try (now apply Hlen); try (now apply Honly);
     try (intros _; now apply Hnum); try (intros _; now apply Hup);
     try (intros _; now apply Hsp); try discriminate
   | intros (-> & H1 & H2 & H3 & H4 & H5); try reflexivity; exfalso;
     first [ apply Hlen in H1; discriminate
           | apply Honly in H2; discriminate
           | specialize (H3 eq_refl); apply Hnum in H3; discriminate
           | specialize (H4 eq_refl); apply Hup in H4; discriminate
           | specialize (H5 eq_refl); apply Hsp in H5; discriminate ] ]).
Qed.

Lemma Password_accepts_iff_witness :
  Password___call__ (mkPassword 8 true true false) "Secret123" (Some "password")
  = Ok "Secret123".
Proof.
  apply Password_accepts_iff. split; [reflexivity|]. split; [simpl; lia|].
  split; [right; exists "S"%char; split; [now left | reflexivity]|].
  split; [intros _; exists "1"%char; split; [simpl; tauto | reflexivity]|].
  split; [intros _; exists "S"%char, "ecret123"; split; [reflexivity|];
          assert (nat_of_ascii "S" = 83) as -> by reflexivity; lia|].
  discriminate.
Defined.
End PasswordFacts.

(** ** Dates *)

Section DateFacts.

Lemma is_digit_digit_char (n : Z) : is_digit (digit_char n) = true.
Proof.
  unfold is_digit, digit_char.
  pose proof (Z.mod_pos_bound n 10 ltac:(lia)) as Hlt.
  rewrite nat_ascii_embedding by lia.
  apply andb_true_iff. split; apply Nat.leb_le; lia.
Qed.

Lemma digit_char_value (n : Z) :
  (Z.of_nat (nat_of_ascii (digit_char n)) - 48 = n mod 10)%Z.
Proof.
  unfold digit_char.
  pose proof (Z.mod_pos_bound n 10 ltac:(lia)) as Hlt.
  rewrite nat_ascii_embedding by lia. lia.
Qed.

Lemma dash_not_digit : is_digit "-"%char = false.
Proof. reflexivity. Qed.

Lemma two_digits (n : Z) :
  (0 <= n < 100 -> 10 * (10 * 0 + (n / 10) mod 10) + n mod 10 = n)%Z.
Proof. intros H. Z.div_mod_to_equations. lia. Qed.

Lemma four_digits (n : Z) :
  (0 <= n < 10000 ->
   10 * (10 * (10 * (10 * 0 + (n / 1000) mod 10) + (n / 100) mod 10) + (n / 10) mod 10)
   + n mod 10 = n)%Z.
Proof. intros H. Z.div_mod_to_equations. lia. Qed.

Lemma date_new_valid y m d dt :
  date_new y m d = Ok dt ->
  dt = mkDate y m d ∧ (1 <= y <= 9999 ∧ 1 <= m <= 12 ∧ 1 <= d <= days_in_month y m)%Z.
Proof.
  unfold date_new.
  destruct (Z.leb 1 y && Z.leb y 9999) eqn:Hy; simpl; [|discriminate].
  destruct (Z.leb 1 m && Z.leb m 12) eqn:Hm; simpl; [|discriminate].
  destruct (Z.leb 1 d && Z.leb d (days_in_month y m)) eqn:Hd; simpl; [|discriminate].
  intros [= <-].
  apply andb_true_iff in Hy as [?%Z.leb_le ?%Z.leb_le].
  apply andb_true_iff in Hm as [?%Z.leb_le ?%Z.leb_le].
  apply andb_true_iff in Hd as [?%Z.leb_le ?%Z.leb_le].
  repeat split; assumption.
Qed.

Lemma days_in_month_bound y m : (days_in_month y m <= 31)%Z.
Proof.
  unfold days_in_month.
  destruct (Z.eqb m 2); [destruct (is_leap y); lia|].
  destruct (Z.eqb m 4 || Z.eqb m 6 || Z.eqb m 9 || Z.eqb m 11); lia.
Qed.

Lemma take_four_digits (a b c d : Z) (rest : string) :
  take_digits 4 (String (digit_char a) (String (digit_char b)
                   (String (digit_char c) (String (digit_char d) rest)))) =
    (String (digit_char a) (String (digit_char b)
       (String (digit_char c) (String (digit_char d) EmptyString))), rest).
Proof. cbn [take_digits]. now rewrite !is_digit_digit_char. Qed.

Lemma take_two_digits (a b : Z) (rest : string) :
  match rest with String c _ => is_digit c | EmptyString => false end = false ->
  take_digits 2 (String (digit_char a) (String (digit_char b) rest)) =
    (String (digit_char a) (String (digit_char b) EmptyString), rest).
Proof. intros _. cbn [take_digits]. now rewrite !is_digit_digit_char. Qed.

(** The ISO text of a date matches the date pattern, with the fields of
    the date in its groups. *)
Lemma from_iso_date_to_iso_date y m d dt :
  date_new y m d = Ok dt -> from_iso_date (VStr (to_iso_date dt)) = Ok dt.
Proof.
  intros Hnew. pose proof Hnew as Hvalid.
  apply date_new_valid in Hvalid as (-> & Hy & Hm & Hd).
  pose proof (days_in_month_bound y m) as Hdim.
  unfold from_iso_date, to_iso_date, match_iso8601_date. cbn [year month day].
  rewrite take_four_digits. cbn [String.length Nat.eqb negb].
  rewrite take_two_digits by reflexivity. cbn [String.length Nat.eqb].
  rewrite take_two_digits by reflexivity. cbn [String.length Nat.eqb].
  assert (at_end "" = true) as -> by reflexivity.
  unfold int_of_digits. cbn [list_ascii_of_string fold_left].
  rewrite !digit_char_value.
  rewrite (four_digits y) by lia.
  rewrite (two_digits m) by lia. rewrite (two_digits d) by lia.
  exact Hnew.
Qed.

(** X16.  The ISO text of every date is read back as that date by a date
    field in its ISO format (the default, ["iso"] or ["iso8601"]):
    [from_iso_date] undoes [to_iso_date]. *)
Theorem Date_field_reads_iso_text y m d dt name format :
  date_new y m d = Ok dt ->
  format = None ∨ format = Some "" ∨ format = Some "iso" ∨ format = Some "iso8601" ->
  Date__deserialize name format (VStr (to_iso_date dt)) = Ok dt.
Proof.
  intros Hnew Hformat.
  unfold Date__deserialize, DateTime__deserialize.
  assert (py_bool (VStr (to_iso_date dt)) = true) as -> by reflexivity.
  cbn [negb].
  assert (Hfunc : dict_get [("iso", from_iso_date); ("iso8601", from_iso_date)]
                    match format with
                    | Some f => if String.eqb f "" then "iso" else f
                    | None => "iso"
                    end = Some from_iso_date).
  { destruct Hformat as [-> | [-> | [-> | ->]]]; reflexivity. }
  rewrite Hfunc. now rewrite (from_iso_date_to_iso_date y m d dt Hnew).
Qed.

Lemma Date_field_reads_iso_text_witness :
  Date__deserialize (Some "born") None (VStr "2024-02-29") = Ok (mkDate 2024 2 29).
Proof.
  apply (Date_field_reads_iso_text 2024 2 29 (mkDate 2024 2 29) (Some "born") None);
    [reflexivity | now left].
Defined.

(** X17.  A date or date-time field declared with a format that its class
    does not list fails on every value that is true, with the field's
    validation error: the format given is never used for parsing. *)
Theorem unlisted_format_rejects_every_value {T : Type}
    (funcs : list (string * (pyval -> result T))) obj_type name fmt value :
  fmt ≠ "" ->
  dict_get funcs fmt = None ->
  py_bool value = true ->
  DateTime__deserialize funcs obj_type name (Some fmt) value =
    Raise (ValidationError
             ["Except field " +:+ fmt_name name +:+ " is a " +:+ obj_type +:+ " value"]).
Proof.
  intros Hfmt Hnone Htrue. unfold DateTime__deserialize. rewrite Htrue. cbn [negb].
  apply String.eqb_neq in Hfmt. rewrite Hfmt, Hnone.
  destruct value; reflexivity.
Qed.

Lemma unlisted_format_rejects_every_value_witness :
  Date__deserialize (Some "born") (Some "%d/%m/%Y") (VStr "29/02/2024")
  = Raise (ValidationError ["Except field born is a date value"]).
Proof.
  apply (unlisted_format_rejects_every_value
           [("iso", from_iso_date); ("iso8601", from_iso_date)] "date" (Some "born")
           "%d/%m/%Y" (VStr "29/02/2024")); [discriminate | reflexivity | reflexivity].
Defined.
End DateFacts.

(** ** The field objects of a schema instance *)

Section ObjectFacts.
Implicit Types (objs : objects) (self ident : nat).

Lemma copy_field_frame ident objs objs' copy other :
  copy_field ident objs = (objs', copy) ->
  copy = o_next objs ∧ o_next objs' = S (o_next objs) ∧
  (other < o_next objs -> same_object objs objs' other).
Proof.
  unfold copy_field. intros [= <- <-]. simpl. repeat split.
  - destruct (o_bindings objs !! ident);
      [apply lookup_insert_ne | apply lookup_delete_ne]; lia.
  - destruct (o_inner objs !! ident);
      [apply lookup_insert_ne | apply lookup_delete_ne]; lia.
Qed.

Lemma copy_field_attrs ident objs objs' copy :
  copy_field ident objs = (objs', copy) ->
  attrs_of (o_bindings objs') copy = attrs_of (o_bindings objs) ident.
Proof.
  unfold copy_field. intros [= <- <-]. simpl. unfold attrs_of.
  destruct (o_bindings objs !! ident) as [b|].
  - now rewrite lookup_insert_eq.
  - now rewrite lookup_delete_eq.
Qed.

Lemma bind_field_S depth self field_name schema objs :
  bind_field (S depth) self field_name schema objs =
    match o_inner objs !! self with
    | None =>
        mkObjects (Field__bind_to_schema self field_name schema (o_bindings objs))
                  (o_inner objs) (o_next objs)
    | Some inner =>
        let '(copied, inner_copy) :=
          copy_field inner
            (mkObjects (Field__bind_to_schema self field_name schema (o_bindings objs))
                       (o_inner objs) (o_next objs)) in
        bind_field depth inner_copy field_name (FieldRef self)
          (mkObjects (o_bindings copied) (<[self := inner_copy]> (o_inner copied))
                     (o_next copied))
    end.
Proof. reflexivity. Qed.

Lemma bind_lookup_other self field_name schema (store : gmap nat binding) other :
  self ≠ other -> Field__bind_to_schema self field_name schema store !! other = store !! other.
Proof. intros H. unfold Field__bind_to_schema. now apply lookup_insert_ne. Qed.

(** Binding a field writes to that field and to objects created by the
    binding, and never takes an identity back. *)
Lemma bind_field_frame (depth : nat) : forall self field_name schema objs,
  self < o_next objs ->
  let objs' := bind_field depth self field_name schema objs in
  o_next objs <= o_next objs' ∧
  (forall other, other < o_next objs -> other ≠ self -> same_object objs objs' other) ∧
  o_bindings objs' !! self
  = Field__bind_to_schema self field_name schema (o_bindings objs) !! self.
Proof.
  induction depth as [|depth IH]; intros self field_name schema objs Hself objs'.
  - subst objs'. simpl. destruct (o_inner objs !! self); simpl;
      (split; [lia|]; split; [|reflexivity]);
      intros other _ Hne; split; simpl; auto using bind_lookup_other.
  - subst objs'. rewrite bind_field_S.
    destruct (o_inner objs !! self) as [inner|] eqn:Hinner.
    + set (bound := mkObjects (Field__bind_to_schema self field_name schema
                                 (o_bindings objs)) (o_inner objs) (o_next objs)).
      destruct (copy_field inner bound) as [copied inner_copy] eqn:Hcopy.
      pose proof (fun other => copy_field_frame inner bound copied inner_copy other Hcopy)
        as Hframe.
      destruct (Hframe 0) as (Hnew & Hnext & _). simpl in Hnew, Hnext.
      set (relinked := mkObjects (o_bindings copied) (<[self := inner_copy]> (o_inner copied))
                                 (o_next copied)).
      destruct (IH inner_copy field_name (FieldRef self) relinked) as (Hle & Hother & _).
      { simpl. lia. }
      simpl in Hle. split; [lia|]. split.
      * intros other Hlt Hne.
        destruct (Hother other) as [Hb Hi]; [simpl; lia | lia |].
        destruct (Hframe other) as (_ & _ & Hsame). specialize (Hsame Hlt).
        destruct Hsame as [Hb' Hi']. simpl in *.
        split.
        -- rewrite Hb, Hb'. now apply bind_lookup_other.
        -- rewrite Hi. rewrite lookup_insert_ne by auto. exact Hi'.
      * destruct (Hother self) as [Hb _]; [simpl; lia | lia |].
        destruct (Hframe self) as (_ & _ & Hsame). specialize (Hsame Hself).
        destruct Hsame as [Hb' _]. simpl in *. now rewrite Hb, Hb'.
    + simpl. split; [lia|]. split; [|reflexivity].
      intros other _ Hne. split; simpl; auto using bind_lookup_other.
Qed.

(** Copying the declared fields creates objects only. *)
Lemma deepcopy_fields_frame (declared : list (string * nat)) :
  forall memo objs objs' copies base,
    deepcopy_fields declared memo objs = (objs', copies) ->
    base <= o_next objs ->
    (forall t c, memo !! t = Some c -> base <= c < o_next objs) ->
    o_next objs <= o_next objs' ∧
    (forall other, other < o_next objs -> same_object objs objs' other) ∧
    Forall (fun copy => base <= snd copy < o_next objs') copies.
Proof.
  induction declared as [|[n t] declared IH];
    intros memo objs objs' copies base Hcopy Hbase Hmemo;
    cbn [deepcopy_fields] in Hcopy.
  - injection Hcopy as <- <-. repeat split; auto.
  - destruct (memo !! t) as [c|] eqn:Hm.
    + destruct (deepcopy_fields declared memo objs) as [o' cs] eqn:Hrest.
      injection Hcopy as <- <-.
      destruct (IH memo objs o' cs base Hrest Hbase Hmemo) as (Hle & Hsame & Hall).
      split; [exact Hle|]. split; [exact Hsame|].
      constructor; [|exact Hall]. simpl. specialize (Hmemo t c Hm). lia.
    + destruct (copy_field t objs) as [objs1 c] eqn:Hc.
      destruct (deepcopy_fields declared (<[t := c]> memo) objs1) as [o' cs] eqn:Hrest.
      injection Hcopy as <- <-.
      pose proof (fun other => copy_field_frame t objs objs1 c other Hc) as Hframe.
      destruct (Hframe 0) as (Hnew & Hnext & _).
      destruct (IH (<[t := c]> memo) objs1 o' cs base Hrest) as (Hle & Hsame & Hall).
      { lia. }
      { intros t' c' Hl. destruct (decide (t = t')) as [<-|Hne].
        - rewrite lookup_insert_eq in Hl. injection Hl as <-. lia.
        - rewrite lookup_insert_ne in Hl by exact Hne.
          specialize (Hmemo t' c' Hl). lia. }
      split; [lia|]. split.
      * intros other Hlt. destruct (Hframe other) as (_ & _ & H1).
        destruct (H1 Hlt) as [Hb Hi]. destruct (Hsame other) as [Hb' Hi']; [lia|].
        split; congruence.
      * constructor; [|exact Hall]. simpl. lia.
Qed.

Lemma init_fields_frame depth self (fields : list (string * nat)) :
  forall objs base,
    Forall (fun f => base <= snd f < o_next objs) fields ->
    let objs' := Schema__init_fields depth self fields objs in
    o_next objs <= o_next objs' ∧
    forall other, other < base -> same_object objs objs' other.
Proof.
  induction fields as [|[n f] fields IH]; intros objs base Hall objs'; subst objs'; simpl.
  - split; [lia|]. intros other _. now split.
  - inversion Hall as [|? ? Hf Hrest]; subst. simpl in Hf.
    destruct (bind_field_frame depth f n (SchemaRef self) objs) as (Hle & Hother & _);
      [lia|].
    destruct (IH (bind_field depth f n (SchemaRef self) objs) base) as (Hle' & Hsame).
    { eapply Forall_impl; [exact Hrest|]. intros [? c] Hc. simpl in *. lia. }
    split; [lia|].
    intros other Hlt. destruct (Hother other) as [Hb Hi]; [lia | lia |].
    destruct (Hsame other Hlt) as [Hb' Hi']. split; congruence.
Qed.

(** X18.  Creating a schema instance leaves every field object that
    existed before as it was, the class's declared fields among them: the
    instance binds copies only. *)
Theorem schema_init_leaves_existing_fields depth self (declared : list (string * nat))
    objs objs' load_fields ident :
  Schema___init__ depth self declared objs = (objs', load_fields) ->
  ident < o_next objs ->
  attrs_of (o_bindings objs') ident = attrs_of (o_bindings objs) ident ∧
  o_inner objs' !! ident = o_inner objs !! ident ∧
  Forall (fun f => snd f ≠ ident) load_fields.
Proof.
  unfold Schema___init__. intros Hinit Hlt.
  destruct (deepcopy_fields declared ∅ objs) as [copied copies] eqn:Hcopy.
  injection Hinit as <- <-.
  destruct (deepcopy_fields_frame declared ∅ objs copied copies (o_next objs) Hcopy)
    as (Hle & Hsame & Hall); [lia | intros t c Hl; rewrite lookup_empty in Hl; discriminate|].
  destruct (init_fields_frame depth self copies copied (o_next objs) Hall) as (_ & Hsame').
  destruct (Hsame ident Hlt) as [Hb Hi]. destruct (Hsame' ident Hlt) as [Hb' Hi'].
  unfold attrs_of. rewrite Hb', Hb. split; [reflexivity|]. split; [congruence|].
  eapply Forall_impl; [exact Hall|]. intros [? c] Hc. simpl in *. lia.
Qed.

Lemma bind_to_schema_sets self field_name sid (store : gmap nat binding) :
  bound_to_or_free (SchemaRef sid) (attrs_of store self) ->
  let b := attrs_of (Field__bind_to_schema self field_name (SchemaRef sid) store) self in
  b_parent b = Some (SchemaRef sid) ∧ b_root b = Some (SchemaRef sid).
Proof.
  intros [Hp Hr]. unfold Field__bind_to_schema. rewrite attrs_of_insert_eq. simpl.
  destruct Hp as [-> | ->], Hr as [-> | ->]; auto.
Qed.

Lemma init_fields_binds depth sid (fields : list (string * nat)) : forall objs,
  Forall (fun f => snd f < o_next objs ∧
                   bound_to_or_free (SchemaRef sid) (attrs_of (o_bindings objs) (snd f)))
         fields ->
  Forall (fun f =>
            let b := attrs_of (o_bindings (Schema__init_fields depth sid fields objs)) (snd f) in
            b_parent b = Some (SchemaRef sid) ∧ b_root b = Some (SchemaRef sid)) fields.
Proof.
  induction fields as [|[n f] fields IH]; intros objs Hall; simpl; [constructor|].
  inversion Hall as [|? ? [Hlt Hfree] Hrest]; subst. simpl in Hlt, Hfree.
  set (objs1 := bind_field depth f n (SchemaRef sid) objs).
  destruct (bind_field_frame depth f n (SchemaRef sid) objs Hlt) as (Hle & Hother & Hself).
  fold objs1 in Hle, Hother, Hself.
  assert (Hf1 : b_parent (attrs_of (o_bindings objs1) f) = Some (SchemaRef sid) ∧
                b_root (attrs_of (o_bindings objs1) f) = Some (SchemaRef sid)).
  { pose proof (bind_to_schema_sets f n sid (o_bindings objs) Hfree) as H.
    unfold attrs_of in *. now rewrite Hself. }
  assert (Hrest1 : Forall (fun g => snd g < o_next objs1 ∧
                     bound_to_or_free (SchemaRef sid) (attrs_of (o_bindings objs1) (snd g)))
                          fields).
  { eapply Forall_impl; [exact Hrest|]. intros [m g] [Hg Hgfree]. simpl in *.
    split; [lia|]. destruct (decide (g = f)) as [->|Hne].
    - destruct Hf1 as [Hp1 Hr1]. unfold bound_to_or_free. rewrite Hp1, Hr1.
      split; now right.
    - destruct (Hother g Hg Hne) as [Hb _]. unfold attrs_of in *. now rewrite Hb. }
  constructor.
  - simpl. destruct (in_dec Nat.eq_dec f (map snd fields)) as [Hin|Hnotin].
    + apply in_map_iff in Hin as ([m g] & Heq & Hin). simpl in Heq. subst g.
      pose proof (IH objs1 Hrest1) as Hall1.
      exact (proj1 (List.Forall_forall _ _) Hall1 (m, f) Hin).
    + assert (Hkeep : forall (l : list (string * nat)) o,
                 ¬ In f (map snd l) -> f < o_next o ->
                 Forall (fun g => snd g < o_next o) l ->
                 o_bindings (Schema__init_fields depth sid l o) !! f = o_bindings o !! f).
      { clear. induction l as [|[m g] l IHl]; intros o Hnot Hf Hl; simpl; [reflexivity|].
        inversion Hl as [|? ? Hg Hl']; subst. simpl in *.
        destruct (bind_field_frame depth g m (SchemaRef sid) o Hg) as (Hle & Hother & _).
        rewrite IHl.
        - destruct (Hother f Hf) as [Hb _]; [intros ->; apply Hnot; now left|]. exact Hb.
        - tauto.
        - lia.
        - eapply Forall_impl; [exact Hl'|]. intros ? ?. simpl in *. lia. }
      unfold attrs_of. rewrite Hkeep; [exact Hf1 | exact Hnotin | lia |].
      eapply Forall_impl; [exact Hrest1|]. intros ? [? _]. assumption.
  - exact (IH objs1 Hrest1).
Qed.

(** X19.  When the declared fields of the class are not bound (no parent,
    no root), every field of a new schema instance has that instance as
    its parent and as its root, also when one field object is declared
    under two names. *)
Theorem schema_init_binds_fields_to_instance depth sid (declared : list (string * nat))
    objs objs' load_fields :
  Forall (fun t => snd t < o_next objs ∧
                   b_parent (attrs_of (o_bindings objs) (snd t)) = None ∧
                   b_root (attrs_of (o_bindings objs) (snd t)) = None) declared ->
  Schema___init__ depth sid declared objs = (objs', load_fields) ->
  map fst load_fields = map fst declared ∧
  Forall (fun f =>
            b_parent (attrs_of (o_bindings objs') (snd f)) = Some (SchemaRef sid) ∧
            b_root (attrs_of (o_bindings objs') (snd f)) = Some (SchemaRef sid))
         load_fields.
Proof.
  unfold Schema___init__. intros Hdecl Hinit.
  destruct (deepcopy_fields declared ∅ objs) as [copied copies] eqn:Hcopy.
  injection Hinit as <- <-.
  assert (Hgen : forall (l : list (string * nat)) memo o o' cs,
             deepcopy_fields l memo o = (o', cs) ->
             Forall (fun t => snd t < o_next o ∧
                       b_parent (attrs_of (o_bindings o) (snd t)) = None ∧
                       b_root (attrs_of (o_bindings o) (snd t)) = None) l ->
             (forall t c, memo !! t = Some c ->
                c < o_next o ∧ b_parent (attrs_of (o_bindings o) c) = None ∧
                b_root (attrs_of (o_bindings o) c) = None) ->
             map fst cs = map fst l ∧
             Forall (fun c => snd c < o_next o' ∧
                       b_parent (attrs_of (o_bindings o') (snd c)) = None ∧
                       b_root (attrs_of (o_bindings o') (snd c)) = None) cs).
  { clear. induction l as [|[n t] l IH]; intros memo o o' cs Hcopy Hl Hmemo;
      cbn [deepcopy_fields] in Hcopy.
    - injection Hcopy as <- <-. split; [reflexivity | constructor].
    - inversion Hl as [|? ? (Ht & Hp & Hr) Hl']; subst. simpl in Ht, Hp, Hr.
      destruct (memo !! t) as [c|] eqn:Hm.
      + destruct (deepcopy_fields l memo o) as [o1 cs1] eqn:Hrest.
        injection Hcopy as <- <-.
        destruct (IH memo o o1 cs1 Hrest Hl' Hmemo) as (Hnames & Hall).
        split; [simpl; now rewrite Hnames|]. constructor; [|exact Hall]. simpl.
        destruct (Hmemo t c Hm) as (Hc & Hcp & Hcr).
        destruct (deepcopy_fields_frame l memo o o1 cs1 0 Hrest) as (Hle & Hsame & _);
          [lia | intros t' c' Hl0; destruct (Hmemo t' c' Hl0); lia |].
        destruct (Hsame c Hc) as [Hb _]. unfold attrs_of in *. rewrite Hb.
        split; [lia | auto].
      + destruct (copy_field t o) as [o1 c] eqn:Hc.
        destruct (deepcopy_fields l (<[t := c]> memo) o1) as [o2 cs1] eqn:Hrest.
        injection Hcopy as <- <-.
        pose proof (fun other => copy_field_frame t o o1 c other Hc) as Hframe.
        destruct (Hframe 0) as (Hnew & Hnext & _).
        pose proof (copy_field_attrs t o o1 c Hc) as Hcattr.
        assert (Hl1 : Forall (fun t => snd t < o_next o1 ∧
                         b_parent (attrs_of (o_bindings o1) (snd t)) = None ∧
                         b_root (attrs_of (o_bindings o1) (snd t)) = None) l).
        { eapply Forall_impl; [exact Hl'|]. intros [m g] (Hg & Hgp & Hgr). simpl in *.
          destruct (Hframe g) as (_ & _ & Hs). destruct (Hs Hg) as [Hb _].
          unfold attrs_of in *. rewrite Hb. split; [lia | auto]. }
        destruct (IH (<[t := c]> memo) o1 o2 cs1 Hrest Hl1) as (Hnames & Hall).
        { intros t' c' Hl0. destruct (decide (t = t')) as [<-|Hne].
          - rewrite lookup_insert_eq in Hl0. injection Hl0 as <-.
            rewrite Hcattr. split; [lia | auto].
          - rewrite lookup_insert_ne in Hl0 by exact Hne.
            destruct (Hmemo t' c' Hl0) as (Hc' & Hcp & Hcr).
            destruct (Hframe c') as (_ & _ & Hs). destruct (Hs Hc') as [Hb _].
            unfold attrs_of in *. rewrite Hb. split; [lia | auto]. }
        split; [simpl; now rewrite Hnames|]. constructor; [|exact Hall]. simpl.
        destruct (deepcopy_fields_frame l (<[t := c]> memo) o1 o2 cs1 0 Hrest)
          as (Hle & Hsame & _); [lia | |].
        { intros t' c' Hl0. destruct (decide (t = t')) as [<-|Hne].
          - rewrite lookup_insert_eq in Hl0. injection Hl0 as <-. lia.
          - rewrite lookup_insert_ne in Hl0 by exact Hne.
            destruct (Hmemo t' c' Hl0). lia. }
        destruct (Hsame c) as [Hb _]; [lia|]. unfold attrs_of in *. rewrite Hb.
        unfold attrs_of in Hcattr. rewrite Hcattr. split; [lia | auto]. }
  destruct (Hgen declared ∅ objs copied copies Hcopy Hdecl) as (Hnames & Hall).
  { intros t c Hl. rewrite lookup_empty in Hl. discriminate. }
  split; [exact Hnames|].
  apply init_fields_binds.
  eapply Forall_impl; [exact Hall|]. intros [n c] (Hc & Hp & Hr). simpl in *.
  split; [exact Hc|]. split; now left.
Qed.
(** X20.  Binding a list field to a schema gives it a new inner field of
    its own: a copy of the declared inner field, bound under the list
    field's name with the list field as parent and the schema as root,
    while the declared inner field stays as it was. *)
Theorem list_bind_copies_inner depth self field_name sid objs inner :
  self < o_next objs -> inner < o_next objs -> inner ≠ self ->
  o_inner objs !! self = Some inner ->
  attrs_of (o_bindings objs) self = unbound ->
  attrs_of (o_bindings objs) inner = unbound ->
  field_name ≠ "" ->
  let objs' := bind_field (S depth) self field_name (SchemaRef sid) objs in
  same_object objs objs' inner ∧
  exists copy,
    o_inner objs' !! self = Some copy ∧ o_next objs <= copy ∧
    attrs_of (o_bindings objs') copy
    = mkBinding (Some (FieldRef self)) (Some field_name) (Some (SchemaRef sid)).
Proof.
  intros Hself Hinner Hne Hlink Hfresh Hifresh Hname objs'. subst objs'.
  rewrite bind_field_S, Hlink.
  set (bound := mkObjects (Field__bind_to_schema self field_name (SchemaRef sid)
                             (o_bindings objs)) (o_inner objs) (o_next objs)).
  destruct (copy_field inner bound) as [copied copy] eqn:Hcopy.
  pose proof (fun other => copy_field_frame inner bound copied copy other Hcopy) as Hframe.
  pose proof (copy_field_attrs inner bound copied copy Hcopy) as Hattrs.
  destruct (Hframe 0) as (Hnew & Hnext & _). simpl in Hnew, Hnext.
  set (relinked := mkObjects (o_bindings copied) (<[self := copy]> (o_inner copied))
                             (o_next copied)).
  destruct (bind_field_frame depth copy field_name (FieldRef self) relinked)
    as (Hle & Hother & Hbound); [simpl; lia|].
  simpl in Hle, Hbound.
  assert (Hself_bound : attrs_of (o_bindings copied) self
                        = mkBinding (Some (SchemaRef sid)) (Some field_name)
                                    (Some (SchemaRef sid))).
  { destruct (Hframe self) as (_ & _ & Hs). destruct (Hs Hself) as [Hb _].
    unfold attrs_of at 1. rewrite Hb. simpl. fold (attrs_of
      (Field__bind_to_schema self field_name (SchemaRef sid) (o_bindings objs)) self).
    unfold Field__bind_to_schema. rewrite attrs_of_insert_eq, Hfresh. reflexivity. }
  assert (Hcopy_free : attrs_of (o_bindings copied) copy = unbound).
  { rewrite Hattrs. simpl. unfold Field__bind_to_schema.
    rewrite attrs_of_insert_ne by auto. exact Hifresh. }
  split.
  - destruct (Hother inner) as [Hb Hi]; [simpl; lia | lia |].
    destruct (Hframe inner) as (_ & _ & Hs). destruct (Hs Hinner) as [Hb' Hi'].
    simpl in *. split.
    + rewrite Hb, Hb'. now apply bind_lookup_other.
    + rewrite Hi, lookup_insert_ne by auto. exact Hi'.
  - exists copy. split; [|split; [lia|]].
    + destruct (Hother self) as [_ Hi]; [simpl; lia | lia |].
      rewrite Hi. simpl. apply lookup_insert_eq.
    + unfold attrs_of at 1. rewrite Hbound.
      fold (attrs_of (Field__bind_to_schema copy field_name (FieldRef self)
                        (o_bindings copied)) copy).
      unfold Field__bind_to_schema. rewrite attrs_of_insert_eq, Hcopy_free.
      cbn [b_parent b_name b_root unbound name_truthy]. rewrite Hself_bound.
      reflexivity.
Qed.
End ObjectFacts.

Lemma schema_init_leaves_existing_fields_witness :
  let classes := mkObjects ∅ {[1 := 2]} 3 in
  let made := Schema___init__ 1 7 [("name", 0); ("tags", 1)] classes in
  attrs_of (o_bindings (fst made)) 1 = unbound ∧
  o_inner (fst made) !! 1 = Some 2 ∧
  Forall (fun f => snd f ≠ 1) (snd made).
Proof.
  intros classes made.
  apply (schema_init_leaves_existing_fields 1 7 [("name", 0); ("tags", 1)] classes
           (fst made) (snd made) 1).
  - apply surjective_pairing.
  - simpl. lia.
Defined.

Lemma schema_init_binds_fields_to_instance_witness :
  let classes := mkObjects ∅ {[1 := 2]} 3 in
  let made := Schema___init__ 1 7 [("name", 0); ("label", 0); ("tags", 1)] classes in
  map fst (snd made) = ["name"; "label"; "tags"] ∧
  Forall (fun f =>
            b_parent (attrs_of (o_bindings (fst made)) (snd f)) = Some (SchemaRef 7) ∧
            b_root (attrs_of (o_bindings (fst made)) (snd f)) = Some (SchemaRef 7))
         (snd made).
Proof.
  intros classes made.
  apply (schema_init_binds_fields_to_instance 1 7
           [("name", 0); ("label", 0); ("tags", 1)] classes (fst made) (snd made)).
  - repeat constructor; simpl; lia.
  - apply surjective_pairing.
Defined.

Lemma list_bind_copies_inner_witness :
  let objs := mkObjects ∅ {[1 := 2]} 3 in
  let objs' := bind_field 1 1 "tags" (SchemaRef 7) objs in
  same_object objs objs' 2 ∧
  exists copy,
    o_inner objs' !! 1 = Some copy ∧ 3 <= copy ∧
    attrs_of (o_bindings objs') copy
    = mkBinding (Some (FieldRef 1)) (Some "tags") (Some (SchemaRef 7)).
Proof.
  intros objs.
  apply (list_bind_copies_inner 0 1 "tags" 7 objs 2);
    try reflexivity; try (simpl; lia); discriminate.
Defined.
